(** * taskflow: in-memory backends and the graph flow

    A shallow embedding of [taskflow/backends/memory.py] and
    [taskflow/exceptions.py], together with the behaviour of
    [taskflow.patterns.graph_flow] that
    [taskflow/tests/unit/test_graph_flow.py] exercises.

    Python objects that are shared by reference (jobs, log books, flow
    details) are named by a [ref]; the object a method is called on is
    threaded through a state-and-exception monad, so that what an operation
    leaves behind when it raises is part of its result. *)

From Stdlib Require Import ZArith Lia.
From stdpp Require Import base option list gmap strings.

Open Scope Z_scope.

(** ** taskflow/exceptions.py *)

Inductive exn_class :=
| TaskFlowException
| NotFound
| AlreadyExists
| ClosedException
| InvalidStateException
| UnclaimableJobException
| JobNotFound
(* builtin exceptions the modelled code can raise *)
| PyException
| PyKeyError
| PyValueError.

#[global] Instance exn_class_eq_dec : EqDecision exn_class.
Proof. solve_decision. Defined.

(** An exception instance: its class and the message it was built with. *)
Record exn := Exn { exn_cls : exn_class; exn_msg : string }.

#[global] Instance exn_eq_dec : EqDecision exn.
Proof. solve_decision. Defined.

(** ** Methods: state passing with exceptions

    A method on an object of type [S] returning [R] maps the object to the
    object it leaves behind and either the raised exception or the returned
    value. *)

Definition M (S R : Type) : Type := S → S * (exn + R).

Definition ret {S R} (r : R) : M S R := λ s, (s, inr r).
Definition raise {S R} (e : exn) : M S R := λ s, (s, inl e).
Definition bind {S A B} (m : M S A) (k : A → M S B) : M S B :=
  λ s, match m s with
       | (s', inr a) => k a s'
       | (s', inl e) => (s', inl e)
       end.
Definition gets {S A} (f : S → A) : M S A := λ s, (s, inr (f s)).
Definition modify {S} (f : S → S) : M S unit := λ s, (f s, inr tt).

#[global] Instance M_ret {S} : MRet (M S) := λ _, ret.
#[global] Instance M_bind {S} : MBind (M S) := λ _ _ k m, bind m k.

(** What a call did: *)
Definition raised {S R} (out : S * (exn + R)) : option exn :=
  match out.2 with inl e => Some e | inr _ => None end.
Definition raises {S R} (out : S * (exn + R)) (c : exn_class) : Prop :=
  ∃ msg, out.2 = inl (Exn c msg).

(** ** States

    [taskflow/states.py] is not among the sources; the state names are the
    ones [memory.py] and the tests use. *)

Inductive State := PENDING | RUNNING | REVERTING | SUCCESS | FAILURE.

#[global] Instance State_eq_dec : EqDecision State.
Proof. solve_decision. Defined.

Definition state_name (s : State) : string :=
  match s with
  | PENDING => "PENDING" | RUNNING => "RUNNING" | REVERTING => "REVERTING"
  | SUCCESS => "SUCCESS" | FAILURE => "FAILURE"
  end.

(** ** Object identity *)

Definition ref := nat.

(** A store of objects of one class, and allocation in it. *)
Definition alloc {A} (h : gmap ref A) (a : A) : ref * gmap ref A :=
  let r := fresh (dom h) in (r, <[r := a]> h).

(** ** [check_not_closed]

    The decorator wraps a method: it raises [ClosedException] when the
    object's [_closed] flag is set and calls the method otherwise. *)

Class Closable (S : Type) := closed_flag : S → bool.

(** A method that also reaches objects other than [self] runs on the pair
    of [self] and the store holding them. *)
#[global] Instance Closable_with_store {S T} `{Closable S} : Closable (S * T) :=
  λ st, closed_flag st.1.

Definition check_not_closed {S A R} `{Closable S}
    (meth_name : string) (meth : A → M S R) : A → M S R :=
  λ args self,
    if closed_flag self
    then raise (Exn ClosedException
                  ("Unable to call " ++ meth_name ++ " on closed object")) self
    else meth args self.

(** ** Jobs

    [taskflow.job.Job] is not among the sources.  [memory.py] reads
    [job.state], assigns [job.owner] and appends to [job.posted_on]; jobs are
    compared with [==], which for a class without [__eq__] is identity. *)

Record Job := mkJob {
  job_state : State;
  job_owner : option string;
  posted_on : list ref
}.

(** The jobs alive in the program, by identity. *)
Definition Jobs := ref → Job.

Definition update_job (jobs : Jobs) (job : ref) (f : Job → Job) : Jobs :=
  λ r, if decide (r = job) then f (jobs r) else jobs r.

(** ** MemoryClaimer *)

Module MemoryClaimer.

Definition claim (job : ref) (owner : string) : M Jobs unit :=
  modify (λ jobs, update_job jobs job
            (λ j, mkJob (job_state j) (Some owner) (posted_on j))).

Definition unclaim (job : ref) (owner : string) : M Jobs unit :=
  modify (λ jobs, update_job jobs job
            (λ j, mkJob (job_state j) None (posted_on j))).

End MemoryClaimer.

(** ** MemoryFlowDetail

    [logbook.FlowDetail] and [logbook.TaskDetail] are not among the sources;
    the base constructor is taken to store its [book] and [name]
    arguments, and a task detail its name and metadata. *)

Record TaskDetail := mkTaskDetail {
  td_name : string;
  td_metadata : option string
}.

Module MemoryFlowDetail.

Record t := mk {
  book : ref;
  name : string;
  _tasks : list TaskDetail
}.

Definition __init__ (book : ref) (name : string) : t := mk book name [].

Definition __iter__ : M t (list TaskDetail) := gets _tasks.

Definition __contains__ (task_name : string) : M t bool :=
  ts ← __iter__;
  mret (existsb (λ t, bool_decide (td_name t = task_name)) ts).

Definition __getitem__ (task_name : string) : M t (list TaskDetail) :=
  ts ← __iter__;
  mret (filter (λ t, td_name t = task_name) ts).

Definition __len__ : M t nat := gets (λ self, length (_tasks self)).

Definition add_task (task_name : string) (metadata : option string)
    : M t TaskDetail :=
  let task_details := mkTaskDetail task_name metadata in
  modify (λ self, mk (book self) (name self)
                     (_tasks self ++ [task_details]));;
  mret task_details.

Definition __delitem__ (task_name : string) : M t unit :=
  ts ← __iter__;
  modify (λ self, mk (book self) (name self)
                     (filter (λ t, td_name t ≠ task_name) ts)).

End MemoryFlowDetail.

(** ** MemoryLogBook *)

Module MemoryLogBook.

Record t := mk {
  _flows : list ref;               (* flow details, by identity *)
  _flow_names : gset string;
  _closed : bool
}.

Definition __init__ : t := mk [] ∅ false.

#[global] Instance closable : Closable t := _closed.

(** The flow details alive in the program. *)
Abbreviation Details := (gmap ref MemoryFlowDetail.t).
Definition St : Type := t * Details.

Definition name_of (details : Details) (w : ref) : option string :=
  MemoryFlowDetail.name <$> details !! w.

(** [self] is the book's own identity, handed to the flow detail. *)
Definition add_flow (self : ref) : string → M St ref :=
  check_not_closed "add_flow" (λ flow_name,
    names ← gets (λ st : St, _flow_names st.1);
    if decide (flow_name ∈ names) then raise (Exn AlreadyExists "")
    else
      details ← gets (λ st : St, st.2);
      let '(f, details') :=
        alloc details (MemoryFlowDetail.__init__ self flow_name) in
      modify (λ st : St,
        (mk (_flows st.1 ++ [f]) ({[flow_name]} ∪ _flow_names st.1)
            (_closed st.1), details'));;
      mret f).

(** [for w in flows: if w.name == flow_name: return w]; falling out of the
    loop returns [None]. *)
Fixpoint first_named (details : Details) (flows : list ref)
    (flow_name : string) : option ref :=
  match flows with
  | [] => None
  | w :: rest =>
      if decide (name_of details w = Some flow_name) then Some w
      else first_named details rest flow_name
  end.

Definition __getitem__ : string → M St (option ref) :=
  check_not_closed "__getitem__" (λ flow_name,
    names ← gets (λ st : St, _flow_names st.1);
    if decide (flow_name ∉ names) then raise (Exn NotFound "")
    else gets (λ st : St, first_named st.2 (_flows st.1) flow_name)).

Definition __iter__ : unit → M St (list ref) :=
  check_not_closed "__iter__" (λ _, gets (λ st : St, _flows st.1)).

Definition close : M St unit :=
  modify (λ st : St, (mk (_flows st.1) (_flow_names st.1) true, st.2)).

Definition __contains__ : string → M St bool :=
  check_not_closed "__contains__" (λ flow_name,
    names ← gets (λ st : St, _flow_names st.1);
    if decide (flow_name ∉ names) then mret false else mret true).

(** [list.remove(x)]: drops the first element equal to [x]. *)
Fixpoint list_remove {A} `{EqDecision A} (x : A) (l : list A)
    : option (list A) :=
  match l with
  | [] => None
  | y :: rest =>
      if decide (y = x) then Some rest
      else cons y <$> list_remove x rest
  end.

Definition __delitem__ (flow_name : string) : M St unit :=
  w ← __getitem__ flow_name;
  names ← gets (λ st : St, _flow_names st.1);
  (if decide (flow_name ∈ names)
   then modify (λ st : St,
          (mk (_flows st.1) (_flow_names st.1 ∖ {[flow_name]})
              (_closed st.1), st.2))
   else raise (Exn PyKeyError flow_name));;
  flows ← gets (λ st : St, _flows st.1);
  (* a [None] from the lookup is no element of the list *)
  match w ≫= λ w, list_remove w flows with
  | Some flows' =>
      modify (λ st : St,
        (mk flows' (_flow_names st.1) (_closed st.1), st.2))
  | None => raise (Exn PyValueError "list.remove(x): x not in list")
  end.

Definition __len__ : M St nat := gets (λ st : St, length (_flows st.1)).

End MemoryLogBook.

(** ** MemoryCatalog *)

Module MemoryCatalog.

Record t := mk {
  _catalogs : list (ref * ref);    (* (job, book) pairs, by identity *)
  _closed : bool
}.

Definition __init__ : t := mk [] false.

#[global] Instance closable : Closable t := _closed.

(** The log books alive in the program. *)
Abbreviation Books := (gmap ref MemoryLogBook.t).
Definition St : Type := t * Books.

Definition __len__ : M St nat := gets (λ st : St, length (_catalogs st.1)).

Fixpoint has_job (catalogs : list (ref * ref)) (job : ref) : bool :=
  match catalogs with
  | [] => false
  | (j, _b) :: rest => if decide (j = job) then true else has_job rest job
  end.

Definition __contains__ (job : ref) : M St bool :=
  gets (λ st : St, has_job (_catalogs st.1) job).

Definition close : M St unit :=
  modify (λ st : St, (mk (_catalogs st.1) true, st.2)).

Fixpoint book_of (catalogs : list (ref * ref)) (job : ref) : option ref :=
  match catalogs with
  | [] => None
  | (j, b) :: rest => if decide (j = job) then Some b else book_of rest job
  end.

Definition create_or_fetch : ref → M St ref :=
  check_not_closed "create_or_fetch" (λ job,
    catalogs ← gets (λ st : St, _catalogs st.1);
    match book_of catalogs job with
    | Some b => mret b
    | None =>
        books ← gets (λ st : St, st.2);
        let '(b, books') := alloc books MemoryLogBook.__init__ in
        modify (λ st : St,
          (mk (_catalogs st.1 ++ [(job, b)]) (_closed st.1), books'));;
        mret b
    end).

Definition erase : ref → M St unit :=
  check_not_closed "erase" (λ job,
    modify (λ st : St,
      (mk (filter (λ jb, jb.1 ≠ job) (_catalogs st.1)) (_closed st.1),
       st.2))).

End MemoryCatalog.

(** ** MemoryJobBoard

    [jobboard.JobBoard] is not among the sources: its [_notify_posted] and
    [_notify_erased] are taken to deliver the notice to the board's
    listeners, recorded here in the order delivered.  [threading.Event] is
    its flag; the reader-writer lock orders callers and has no state of its
    own between calls. *)

Module MemoryJobBoard.

Inductive notice := Posted (job : ref) | Erased (job : ref).

#[global] Instance notice_eq_dec : EqDecision notice.
Proof. solve_decision. Defined.

Record t := mk {
  _event : bool;
  _board : list (Z * ref);         (* (posting time, job) pairs *)
  _closed : bool;
  notices : list notice
}.

Definition __init__ : t := mk false [] false [].

#[global] Instance closable : Closable t := _closed.

Definition St : Type := t * Jobs.

Definition set_event (flag : bool) : M St unit :=
  modify (λ st : St,
    (mk flag (_board st.1) (_closed st.1) (notices st.1), st.2)).

Definition set_board (board : list (Z * ref)) : M St unit :=
  modify (λ st : St,
    (mk (_event st.1) board (_closed st.1) (notices st.1), st.2)).

Definition _notify_posted (job : ref) : M St unit :=
  modify (λ st : St,
    (mk (_event st.1) (_board st.1) (_closed st.1)
        (notices st.1 ++ [Posted job]), st.2)).

Definition _notify_erased (job : ref) : M St unit :=
  modify (λ st : St,
    (mk (_event st.1) (_board st.1) (_closed st.1)
        (notices st.1 ++ [Erased job]), st.2)).

Definition close : M St unit :=
  modify (λ st : St,
    (mk (_event st.1) (_board st.1) true (notices st.1), st.2)).

Fixpoint _select_posts (board : list (Z * ref)) (date_functor : Z → bool)
    : list ref :=
  match board with
  | [] => []
  | (d, j) :: rest =>
      if date_functor d then j :: _select_posts rest date_functor
      else _select_posts rest date_functor
  end.

Definition repost (job : ref) : M St unit :=
  _notify_posted job;;
  set_event true;;
  set_event false.

(** [self] is the board's own identity, for the weak back-reference the job
    keeps; [utcnow] is the clock reading [datetime.utcnow()] returns. *)
Definition post (self : ref) (utcnow : Z) : ref → M St unit :=
  check_not_closed "post" (λ job,
    board ← gets (λ st : St, _board st.1);
    set_board (board ++ [(utcnow, job)]);;
    modify (λ st : St,
      (st.1, update_job st.2 job
               (λ j, mkJob (job_state j) (job_owner j)
                           (posted_on j ++ [self]))));;
    _notify_posted job;;
    set_event true;;
    set_event false).

Definition posted_before : option Z → M St (list ref) :=
  check_not_closed "posted_before" (λ date_posted,
    let date_functor :=
      match date_posted with
      | None => λ d, true
      | Some date_posted => λ d, bool_decide (d < date_posted)
      end in
    gets (λ st : St, _select_posts (_board st.1) date_functor)).

(** The loop of [erase] that looks for the job, leaving at the first hit. *)
Fixpoint on_board (board : list (Z * ref)) (job : ref) : bool :=
  match board with
  | [] => false
  | (d, j) :: rest => if decide (j = job) then true else on_board rest job
  end.

Definition erase : ref → M St unit :=
  check_not_closed "erase" (λ job,
    board ← gets (λ st : St, _board st.1);
    let exists_ := on_board board job in
    if negb exists_ then raise (Exn JobNotFound "")
    else
      state ← gets (λ st : St, job_state (st.2 job));
      if decide (state ∉ [SUCCESS; FAILURE])
      then raise (Exn InvalidStateException
                    ("Can not delete a job in state " ++ state_name state))
      else
        set_board (filter (λ dj, dj.2 ≠ job) board);;
        _notify_erased job).

Definition posted_after : option Z → M St (list ref) :=
  check_not_closed "posted_after" (λ date_posted,
    let date_functor :=
      match date_posted with
      | None => λ d, true
      | Some date_posted => λ d, bool_decide (d >= date_posted)
      end in
    gets (λ st : St, _select_posts (_board st.1) date_functor)).

(** [await] returns once the event is set or the timeout has passed; what it
    leaves behind is the board as it was. *)
Definition await : option Z → M St unit :=
  check_not_closed "await" (λ timeout, mret tt).

End MemoryJobBoard.

(** ** The graph flow

    [taskflow/patterns/graph_flow.py], [taskflow/decorators.py] and
    [taskflow/tests/utils.py] are not among the sources; the tests of
    [test_graph_flow.py] call them.  The engine below follows sections 3
    and 4 of the specification, step by step. *)

(** The values tasks exchange. *)
#[local] Unset Elimination Schemes.
Inductive value :=
| VNone
| VBool (b : bool)
| VInt (z : Z)
| VStr (s : string)
| VList (vs : list value).
#[local] Set Elimination Schemes.

#[global] Instance value_eq_dec : EqDecision value.
Proof.
  refine (fix go (v1 v2 : value) {struct v1} : Decision (v1 = v2) :=
    match v1, v2 with
    | VNone, VNone => left _
    | VBool a, VBool b => cast_if (decide (a = b))
    | VInt a, VInt b => cast_if (decide (a = b))
    | VStr a, VStr b => cast_if (decide (a = b))
    | VList l1, VList l2 => cast_if (@list_eq_dec _ go l1 l2)
    | _, _ => right _
    end); abstract congruence.
Defined.

Module GraphFlow.

(** Tasks are named by their position in the flow's task sequence. *)
Abbreviation node := nat.

Section Engine.

(** What the task bodies act on: the context object handed to [run], and
    whatever else they hold on to. *)
Context {world : Type}.

(** Modelled from the spec: the [cause] argument of a compensation (spec 3
    and 4.4, step 3d): the flow it belongs to, as it is when the
    compensation is called, and the error that set off the reversal. *)
Record Cause := mkCause {
  cause_flow_name : string;
  cause_flow_state : State;
  cause_exc : exn
}.

(** Modelled from the spec: the Task Descriptor of
    [taskflow/decorators.py] (spec 3 and 4.1): a unit of work with its
    name, the names it requires and provides, and an optional compensation
    taking the context, the task's result and the cause.  The unit of work
    either raises or returns a mapping (or [None]). *)
Record Task := mkTask {
  name : string;
  requires : list string;
  provides : list string;
  work : world → gmap string value → world * (exn + option (gmap string value));
  revert : option (world → option (gmap string value) → Cause
                   → world * option exn)
}.

(** Modelled from the spec: the outcome recorded for a completed task
    (spec 3): the mapping it returned and the inputs it was given. *)
Record Outcome := mkOutcome {
  raw_result : option (gmap string value);
  resolved_inputs : gmap string value
}.

(** Modelled from the spec: the Flow of [taskflow/patterns/graph_flow.py]
    (spec 3). *)
Record Flow := mkFlow {
  flow_name : string;
  state : State;
  allow_same_inputs : bool;
  tasks : list Task;
  results : list (Task * Outcome)
}.

(** Modelled from the spec: the constructor of the Flow, "created PENDING
    with an empty task sequence" (spec 3). *)
Definition Flow_new (flow_name : string) (allow_same_inputs : bool) : Flow :=
  mkFlow flow_name PENDING allow_same_inputs [] [].

(** *** The dependency graph

    Modelled from the spec: the Dependency Graph of spec 3.  Tasks are the
    nodes, named by their position in the flow's task sequence; an edge
    leads from a producer of a name to a task that requires the name. *)

Record Graph := mkGraph {
  nodes : list node;
  edges : list (node * string * node)    (* producer, name, consumer *)
}.

Definition indexed (ts : list Task) : list (node * Task) :=
  imap pair ts.

(** Modelled from the spec: [provides_index] (spec 4.2, step 1): the
    producers of a name, in insertion order. *)
Definition provides_index (ts : list Task) (n : string) : list node :=
  (filter (λ it, n ∈ provides it.2) (indexed ts)).*1.

(** Modelled from the spec: the check of spec 4.2, step 2: some output name
    has more than one producer. *)
Definition ambiguous (ts : list Task) : bool :=
  existsb (λ t, existsb (λ n, bool_decide (1 < length (provides_index ts n))%nat)
                        (provides t)) ts.

(** Modelled from the spec: the check of spec 4.2, step 3: some task
    requires a name without a producer. *)
Definition unresolved (ts : list Task) : bool :=
  existsb (λ t, existsb (λ n, bool_decide (provides_index ts n = []))
                        (requires t)) ts.

(** Modelled from the spec: the edges of spec 4.2, step 4: one from each
    producer of a name to each task requiring it. *)
Definition build_edges (ts : list Task) : list (node * string * node) :=
  it ← indexed ts;
  n ← requires it.2;
  p ← provides_index ts n;
  [(p, n, it.1)].

(** *** The topological scheduler (spec 4.3) *)

(** Modelled from the spec: a ready task of spec 4.3, "indegree zero in the
    remaining graph": no edge leads to it from a task that is still to be
    scheduled. *)

Definition ready (es : list (node * string * node)) (remaining : list node)
    (c : node) : bool :=
  forallb (λ e, negb (bool_decide (e.2 = c ∧ e.1.1 ∈ remaining))) es.

(** Modelled from the spec: the rounds of spec 4.3.  One round appends the
    ready tasks in insertion order and removes them; tasks that remain
    with none ready are a cycle.  Every round but the last leaves fewer
    tasks, so as many rounds as there are tasks suffice. *)
Fixpoint schedule (rounds : nat) (es : list (node * string * node))
    (remaining scheduled : list node) : option (list node) :=
  match remaining with
  | [] => Some scheduled
  | _ :: _ =>
      match rounds with
      | O => None
      | S rounds =>
          let now := filter (λ c, ready es remaining c = true) remaining in
          match now with
          | [] => None       (* tasks remain and none is ready: a cycle *)
          | _ :: _ =>
              schedule rounds es
                (filter (λ c, ready es remaining c ≠ true) remaining)
                (scheduled ++ now)
          end
      end
  end.

(** Modelled from the spec: [order(graph)] of spec 4.3. *)
Definition order (g : Graph) : exn + list node :=
  match schedule (length (nodes g)) (edges g) (nodes g) [] with
  | Some l => inr l
  | None => inl (Exn InvalidStateException "circular dependency")
  end.

(** Modelled from the spec: [connect(tasks, allow_same_inputs)] of spec
    4.2, steps 1 to 6. *)
Definition connect (ts : list Task) (allow_same_inputs : bool)
    : exn + Graph :=
  if negb allow_same_inputs && ambiguous ts
  then inl (Exn InvalidStateException "ambiguous provider")
  else if unresolved ts
  then inl (Exn InvalidStateException "unresolved requirement")
  else
    let g := mkGraph (seq 0 (length ts)) (build_edges ts) in
    match order g with
    | inl e => inl e
    | inr _ => inr g
    end.

(** *** The flow's operations *)

(** Modelled from the spec: [add(task)] of spec 4.4: appends the task,
    while the flow is PENDING. *)
Definition add (t : Task) : M Flow unit :=
  st ← gets state;
  if decide (st = PENDING)
  then modify (λ f, mkFlow (flow_name f) (state f) (allow_same_inputs f)
                           (tasks f ++ [t]) (results f))
  else raise (Exn InvalidStateException "flow is not pending").

(** Modelled from the spec: [connect()] and [order()] called on a flow
    (spec 4.2, step 6): both derive the graph from the flow's task sequence
    and leave the flow as it is. *)
Definition Flow_connect (f : Flow) : exn + Graph :=
  connect (tasks f) (allow_same_inputs f).

Definition Flow_order (f : Flow) : exn + list Task :=
  match Flow_connect f with
  | inl e => inl e
  | inr g =>
      match order g with
      | inl e => inl e
      | inr l => inr (omap (λ i, tasks f !! i) l)
      end
  end.

(** *** Running a flow (spec 4.4) *)

(** Modelled from the spec: the calls of spec 4.4, steps 3b and 3d, that the
    engine makes to task bodies and compensations, kept in the order it
    makes them. *)
Inductive Call :=
| Invoked (task : string) (kwargs : gmap string value)
| Compensated (task : string) (result : option (gmap string value))
              (cause : Cause).

(** A run in progress: the flow, the context handed to [run], and the calls
    made so far. *)
Record Run := mkRun {
  flow : Flow;
  context : world;
  calls : list Call
}.

Definition set_state (s : State) : M Run unit :=
  modify (λ r,
    mkRun (mkFlow (flow_name (flow r)) s (allow_same_inputs (flow r))
                  (tasks (flow r)) (results (flow r)))
          (context r) (calls r)).

Definition record_result (t : Task) (o : Outcome) : M Run unit :=
  modify (λ r,
    mkRun (mkFlow (flow_name (flow r)) (state (flow r))
                  (allow_same_inputs (flow r)) (tasks (flow r))
                  (results (flow r) ++ [(t, o)]))
          (context r) (calls r)).

(** Modelled from the spec: the shared output pool of spec 4.4, step 3c, read
    off the results: the values completed producers have supplied for a
    name, in completion order. *)
Definition supplied (done : list (Task * Outcome)) (n : string)
    : list value :=
  omap (λ entry : Task * Outcome,
          if decide (n ∈ provides entry.1)
          then raw_result entry.2 ≫= λ m, m !! n
          else None) done.

(** Modelled from the spec: spec 4.4, step 3a: one value is passed as it is,
    several as their list. *)
Definition fan_in (vs : list value) : option value :=
  match vs with
  | [] => None
  | [v] => Some v
  | _ => Some (VList vs)
  end.

(** Modelled from the spec: the resolved inputs of a task, spec 4.4,
    step 3a. *)
Definition resolve_inputs (done : list (Task * Outcome)) (t : Task)
    : gmap string value :=
  list_to_map (omap (λ n, pair n <$> fan_in (supplied done n)) (requires t)).

(** Modelled from the spec: spec 4.4, step 3b: calling the unit of work;
    what it raises is caught. *)
Definition invoke (t : Task) (kwargs : gmap string value)
    : M Run (exn + option (gmap string value)) :=
  λ r, let (w, res) := work t (context r) kwargs in
       (mkRun (flow r) w (calls r ++ [Invoked (name t) kwargs]), inr res).

(** Modelled from the spec: spec 4.4, step 3d: calling the compensation of a
    completed task, if it has one, with the context, the task's result and
    the cause; what it raises is swallowed. *)
Definition compensate (e : exn) (entry : Task * Outcome) : M Run unit :=
  match revert entry.1 with
  | None => mret ()
  | Some undo =>
      λ r, let cause :=
             mkCause (flow_name (flow r)) (state (flow r)) e in
           let (w, _swallowed) :=
             undo (context r) (raw_result entry.2) cause in
           (mkRun (flow r) w
                  (calls r ++ [Compensated (name entry.1)
                                           (raw_result entry.2) cause]),
            inr ())
  end.

Fixpoint compensate_all (e : exn) (entries : list (Task * Outcome))
    : M Run unit :=
  match entries with
  | [] => mret ()
  | entry :: rest => compensate e entry;; compensate_all e rest
  end.

(** Modelled from the spec: spec 4.4, step 3d: RUNNING to REVERTING, the
    compensations of the completed tasks, newest first, REVERTING to
    FAILURE, and the triggering error back to the caller (spec 7). *)
Definition revert_and_fail (e : exn) : M Run unit :=
  set_state REVERTING;;
  done ← gets (λ r, results (flow r));
  compensate_all e (reverse done);;
  set_state FAILURE;;
  raise e.

(** Modelled from the spec: the loop of spec 4.4, steps 3 and 4. *)
Fixpoint execute (ord : list Task) : M Run unit :=
  match ord with
  | [] => set_state SUCCESS
  | t :: rest =>
      done ← gets (λ r, results (flow r));
      let kwargs := resolve_inputs done t in
      res ← invoke t kwargs;
      match res with
      | inr raw =>
          record_result t (mkOutcome raw kwargs);;
          execute rest
      | inl e => revert_and_fail e
      end
  end.

(** Modelled from the spec: spec 4.4, steps 1 and 2: a flow that does not
    validate goes from PENDING to FAILURE and the error is raised; one that
    does goes to RUNNING.  The spec leaves running a flow that is not
    PENDING undefined; it is refused here as an invalid state. *)
Definition run_steps : M Run unit :=
  f ← gets flow;
  if decide (state f = PENDING)
  then
    match Flow_order f with
    | inl e => set_state FAILURE;; raise e
    | inr ord => set_state RUNNING;; execute ord
    end
  else raise (Exn InvalidStateException "flow is not pending").

(** Modelled from the spec: [run(context)] of spec 4.4 and 7. *)
Definition run (f : Flow) (context : world) : Run * (exn + unit) :=
  run_steps (mkRun f context []).

End Engine.
End GraphFlow.

(** * Vocabulary of the properties, and the data of the tests *)

(** ** Job boards used as examples *)

Section JobBoardVocabulary.
Import MemoryJobBoard.

Definition board_example : t :=
  mk false [(10, 1%nat); (20, 2%nat)] false [].

Definition jobs_example : Jobs :=
  λ r, if decide (r = 1%nat) then mkJob SUCCESS None []
       else mkJob PENDING None [].

(** A board on which one job has been posted twice. *)
Definition twice_posted : St :=
  (post 0%nat 5 1%nat (post 0%nat 1 1%nat (__init__, jobs_example)).1).1.

End JobBoardVocabulary.

(** ** A catalog used as example *)

Section CatalogVocabulary.
Import MemoryCatalog.

Definition catalog_example : t := mk [(1%nat, 7%nat); (2%nat, 8%nat)] false.

End CatalogVocabulary.

(** ** Log books: consistency, and the calls a client can make *)

Section LogBookVocabulary.
Import MemoryLogBook.

(** The consistency the methods keep between [_flows] and [_flow_names]:
    every listed flow detail is alive, no two of them share a name, and the
    name set holds exactly their names. *)
Definition book_inv (st : St) : Prop :=
  (∀ w, w ∈ _flows st.1 → is_Some (st.2 !! w)) ∧
  NoDup (name_of st.2 <$> _flows st.1) ∧
  (∀ n, n ∈ _flow_names st.1 ↔ Some n ∈ name_of st.2 <$> _flows st.1).

(** A flow detail named [n] is in the book. *)
Definition has_flow (st : St) (n : string) : Prop :=
  ∃ w, w ∈ _flows st.1 ∧ name_of st.2 w = Some n.

Inductive call :=
| AddFlow (self : ref) (n : string)
| GetItem (n : string)
| Iter
| Close
| Contains (n : string)
| DelItem (n : string)
| Len
| AddTask (w : ref) (task_name : string) (metadata : option string)
| DelTask (w : ref) (task_name : string).

#[global] Instance call_eq_dec : EqDecision call.
Proof. solve_decision. Defined.

Definition on_detail {R} (w : ref) (m : M MemoryFlowDetail.t R) (st : St)
    : St :=
  (st.1, alter (λ d, (m d).1) w st.2).

Definition perform (st : St) (c : call) : St :=
  match c with
  | AddFlow self n => (add_flow self n st).1
  | GetItem n => (__getitem__ n st).1
  | Iter => (__iter__ () st).1
  | Close => (close st).1
  | Contains n => (__contains__ n st).1
  | DelItem n => (__delitem__ n st).1
  | Len => (__len__ st).1
  | AddTask w task_name metadata =>
      on_detail w (MemoryFlowDetail.add_task task_name metadata) st
  | DelTask w task_name =>
      on_detail w (MemoryFlowDetail.__delitem__ task_name) st
  end.

Definition perform_all (st : St) (calls : list call) : St :=
  foldl perform st calls.

(** The flow detail [f] is in the book under the name [n]. *)
Definition holds_flow (st : St) (n : string) (f : ref) : Prop :=
  f ∈ _flows st.1 ∧ name_of st.2 f = Some n.

(** A book holding one flow detail, named "boot". *)
Definition book_example : St :=
  perform_all (__init__, ∅) [AddFlow 0%nat "boot"].

End LogBookVocabulary.

(** ** Closed objects *)

Section ClosedVocabulary.

(** The call raises [ClosedException] and leaves the object as it was. *)
Definition rejected {S R} (m : M S R) (self : S) : Prop :=
  raises (m self) ClosedException ∧ (m self).1 = self.

(** A catalog that was opened and closed. *)
Definition closed_catalog : MemoryCatalog.St :=
  (MemoryCatalog.close (MemoryCatalog.__init__, ∅)).1.

(** A log book that was given a flow and then closed. *)
Definition closed_book : MemoryLogBook.St :=
  perform_all (MemoryLogBook.__init__, ∅) [AddFlow 0%nat "boot"; Close].

Definition closed_board : MemoryJobBoard.St :=
  (MemoryJobBoard.close (board_example, jobs_example)).1.

End ClosedVocabulary.

(** ** Valid execution orders *)

Section SchedulerVocabulary.
Import GraphFlow.
Context {world : Type}.
Implicit Types (ts : list (@Task world)) (es : list (node * string * node)).
Implicit Types (l remaining scheduled : list node).

(** Every task stands after the producers of what it requires. *)
Definition respects es l : Prop :=
  ∀ p n c i, (p, n, c) ∈ es → l !! i = Some c →
    ∃ j, (j < i)%nat ∧ l !! j = Some p.

(** A valid execution order of a graph: each node once, producers first. *)
Definition topological (g : Graph) l : Prop :=
  l ≡ₚ nodes g ∧ respects (edges g) l.

End SchedulerVocabulary.

(** ** Flows as clients build them, and what a run leaves *)

Section ExecutionVocabulary.
Import GraphFlow.
Context {world : Type}.
Implicit Types (t : @Task world) (ts ord : list (@Task world)).
Implicit Types (f : @Flow world) (r : @Run world) (ctx : world).
Implicit Types (done : list (@Task world * Outcome)).

(** The flow a client gets from [Flow(name, allow_same_inputs)] and one
    [add] per task. *)
Definition build (flow_name : string) (allow : bool) ts : Flow :=
  foldl (λ f t, (add t f).1) (Flow_new flow_name allow) ts.

(** The names of the tasks the engine has called, in call order. *)
Definition invoked (cs : list Call) : list string :=
  omap (λ c, match c with Invoked n _ => Some n | _ => None end) cs.

(** The compensations the engine has called, in call order. *)
Definition compensated (cs : list Call)
    : list (string * option (gmap string value) * Cause) :=
  omap (λ c, match c with
             | Compensated n result cause => Some (n, result, cause)
             | _ => None
             end) cs.

(** Each completed task is recorded with the inputs resolved from the tasks
    completed before it. *)
Definition well_recorded done : Prop :=
  ∀ i t o, done !! i = Some (t, o) →
    resolved_inputs o = resolve_inputs (take i done) t.

Definition with_state f (s : State) : Flow :=
  mkFlow (flow_name f) s (allow_same_inputs f) (tasks f) (results f).

Definition with_result f t (o : Outcome) : Flow :=
  mkFlow (flow_name f) (state f) (allow_same_inputs f) (tasks f)
         (results f ++ [(t, o)]).

End ExecutionVocabulary.

(** ** The flows of the tests *)

Section GraphFlowTestsVocabulary.
Import GraphFlow.

(** Modelled from the spec: the task class [ProvidesRequiresTask] of
    [taskflow/tests/utils.py], which is not among the sources: it appends
    its name to the order list kept in the context and returns [True] for
    every name it provides (spec 4.4, step 3a, and the assertions of the
    tests). *)
Definition ProvidesRequiresTask (name : string) (provides requires : list string)
    : @Task (list string) :=
  mkTask name requires provides
    (λ order_list kwargs,
       (order_list ++ [name],
        inr (Some (list_to_map ((λ p, (p, VBool true)) <$> provides)))))
    None.

(** The flow of [test_no_requires_provider]. *)
Definition no_provider_tasks : list (@Task (list string)) :=
  [ProvidesRequiresTask "test1" ["a"; "b"] ["c"; "d"]].

(** The flow of [test_looping_flow]. *)
Definition looping_tasks : list (@Task (list string)) :=
  [ProvidesRequiresTask "test1" ["a"; "b"] ["c"; "d"; "e"];
   ProvidesRequiresTask "test2" ["c"; "d"; "e"] ["a"; "b"]].

(** The flow of [test_reverting_flow]; the world is the list [reverted]. *)
Definition run1_revert (reverted : list string)
    (result : option (gmap string value)) (cause : Cause)
    : list string * option exn :=
  (reverted ++ ["run1"],
   if decide (cause_flow_state cause = REVERTING
              ∧ result = Some {["a" := VInt 1]})
   then None else Some (Exn PyException "AssertionError")).

Definition reverting_tasks : list (@Task (list string)) :=
  [mkTask "run1" [] ["a"]
     (λ w kwargs, (w, inr (Some {["a" := VInt 1]}))) (Some run1_revert);
   mkTask "run2" ["a"] ["c"]
     (λ w kwargs, (w, inl (Exn PyException "Dead"))) None].

(** The flows of [test_multi_provider_disallowed] and
    [test_multi_provider_allowed]. *)
Definition multi_provider_disallowed : list (@Task (list string)) :=
  [ProvidesRequiresTask "test6" ["y"] [];
   ProvidesRequiresTask "test7" ["y"] [];
   ProvidesRequiresTask "test8" [] ["y"]].

Definition multi_provider_allowed : list (@Task (list string)) :=
  [ProvidesRequiresTask "test6" ["y"; "z"] [];
   ProvidesRequiresTask "test7" ["y"] ["z"];
   ProvidesRequiresTask "test8" [] ["y"; "z"]].

(** The flow of [test_happy_flow], whatever the four bodies do. *)
Definition happy_tasks {world}
    (run1 run2 run3 run4 :
       world → gmap string value → world * (exn + option (gmap string value)))
    : list (@Task world) :=
  [mkTask "run1" [] ["a"] run1 None;
   mkTask "run2" ["a"] ["c"] run2 None;
   mkTask "run3" ["a"] ["b"] run3 None;
   mkTask "run4" ["b"; "c"] [] run4 None].

Definition happy_edges : list (node * string * node) :=
  [(0, "a", 1); (0, "a", 2); (2, "b", 3); (1, "c", 3)]%nat.

End GraphFlowTestsVocabulary.

(** ** Catalogs and job boards as programs build them *)

Section CatalogCallsVocabulary.
Import MemoryCatalog.

(** The calls a client can make on a catalog, and what it can do to a log
    book it holds: any change of the book, which stays the same object. *)
Inductive catalog_call :=
| CatLen
| CatContains (job : ref)
| CatClose
| CatCreateOrFetch (job : ref)
| CatErase (job : ref)
| CatOnBook (b : ref) (change : MemoryLogBook.t → MemoryLogBook.t).

Definition catalog_perform (st : St) (c : catalog_call) : St :=
  match c with
  | CatLen => (__len__ st).1
  | CatContains job => (__contains__ job st).1
  | CatClose => (close st).1
  | CatCreateOrFetch job => (create_or_fetch job st).1
  | CatErase job => (erase job st).1
  | CatOnBook b change => (st.1, alter change b st.2)
  end.

Definition catalog_perform_all (st : St) (calls : list catalog_call) : St :=
  foldl catalog_perform st calls.

(** No job has two entries, no book belongs to two jobs, and every book of
    the catalog is alive. *)
Definition catalog_inv (st : St) : Prop :=
  NoDup (_catalogs st.1).*1 ∧
  NoDup (_catalogs st.1).*2 ∧
  (∀ b, b ∈ (_catalogs st.1).*2 → is_Some (st.2 !! b)).

End CatalogCallsVocabulary.

Section BoardCallsVocabulary.
Import MemoryJobBoard.

(** The calls a client can make on a job board, on the claimer, and the
    assignment of a job's state by whoever runs the job. *)
Inductive board_call :=
| BPost (utcnow : Z) (job : ref)
| BRepost (job : ref)
| BErase (job : ref)
| BClose
| BPostedBefore (date_posted : option Z)
| BPostedAfter (date_posted : option Z)
| BAwait (timeout : option Z)
| BClaim (job : ref) (owner : string)
| BUnclaim (job : ref) (owner : string)
| BSetState (job : ref) (s : State).

Definition on_jobs {R} (m : M Jobs R) (st : St) : St := (st.1, (m st.2).1).

(** [self] is the identity of the board the calls are made on. *)
Definition board_perform (self : ref) (st : St) (c : board_call) : St :=
  match c with
  | BPost utcnow job => (post self utcnow job st).1
  | BRepost job => (repost job st).1
  | BErase job => (erase job st).1
  | BClose => (close st).1
  | BPostedBefore d => (posted_before d st).1
  | BPostedAfter d => (posted_after d st).1
  | BAwait timeout => (await timeout st).1
  | BClaim job owner => on_jobs (MemoryClaimer.claim job owner) st
  | BUnclaim job owner => on_jobs (MemoryClaimer.unclaim job owner) st
  | BSetState job s =>
      (st.1, update_job st.2 job
               (λ j, mkJob s (job_owner j) (posted_on j)))
  end.

Definition board_perform_all (self : ref) (st : St) (calls : list board_call)
    : St :=
  foldl (board_perform self) st calls.

(** Between calls the event is clear, every posted job has been announced
    and tracks the board, and only announced jobs have been reported
    erased. *)
Definition board_inv (self : ref) (st : St) : Prop :=
  _event st.1 = false ∧
  (∀ j, j ∈ (_board st.1).*2 →
     Posted j ∈ notices st.1 ∧ self ∈ posted_on (st.2 j)) ∧
  (∀ j, Erased j ∈ notices st.1 → Posted j ∈ notices st.1).

(** A flow detail holding two task details named "a" and one named "b". *)
Definition detail_example : MemoryFlowDetail.t :=
  MemoryFlowDetail.mk 0%nat "boot"
    [mkTaskDetail "a" None; mkTaskDetail "b" None;
     mkTaskDetail "a" (Some "again")].

End BoardCallsVocabulary.

(** * Properties *)

(** ** Running the monad *)

Ltac by_compute := apply (bool_decide_unpack _); vm_compute; exact I.

Ltac run_M :=
  unfold check_not_closed, mbind, M_bind, bind, mret, M_ret, ret, raise,
         gets, modify, raises, raised in *;
  simpl in *.

(** ** The decorator *)

Lemma check_closed {S A R} `{Closable S} (meth_name : string)
    (meth : A → M S R) (args : A) (self : S) :
  closed_flag self = true →
  check_not_closed meth_name meth args self =
    (self, inl (Exn ClosedException
                  ("Unable to call " ++ meth_name ++ " on closed object"))).
Proof. intros Hc. unfold check_not_closed. by rewrite Hc. Qed.

Lemma check_open {S A R} `{Closable S} (meth_name : string)
    (meth : A → M S R) (args : A) (self : S) :
  closed_flag self = false →
  check_not_closed meth_name meth args self = meth args self.
Proof. intros Hc. unfold check_not_closed. by rewrite Hc. Qed.

(** ** The job board *)

Section JobBoard.
Import MemoryJobBoard.

Lemma on_board_elem_of (board : list (Z * ref)) (job : ref) :
  on_board board job = true ↔ job ∈ board.*2.
Proof.
  induction board as [|[d j] rest IH]; simpl.
  - split; [done | by intros ?%elem_of_nil].
  - rewrite elem_of_cons. case_decide as Hj; subst.
    + split; auto.
    + rewrite IH. split; [auto | by intros [?|?]].
Qed.

Lemma select_posts_filter (board : list (Z * ref)) (f : Z → bool) :
  _select_posts board f = (filter (λ dj, f dj.1 = true) board).*2.
Proof.
  induction board as [|[d j] rest IH]; simpl; [done|].
  rewrite filter_cons. simpl. destruct (f d) eqn:Hf.
  - rewrite decide_True by done. simpl. by rewrite IH.
  - rewrite decide_False by done. done.
Qed.

Lemma select_posts_all (board : list (Z * ref)) :
  _select_posts board (λ _, true) = board.*2.
Proof. induction board as [|[d j] rest IH]; simpl; [done | by f_equal]. Qed.

Lemma erase_absent (b : t) (jobs : Jobs) (job : ref) :
  _closed b = false → job ∉ (_board b).*2 →
  erase job (b, jobs) = ((b, jobs), inl (Exn JobNotFound "")).
Proof.
  intros Hopen Habs. unfold erase. run_M. unfold closed_flag, Closable_with_store,
    closed_flag, closable. simpl. rewrite Hopen.
  destruct (on_board (_board b) job) eqn:Hon; [|done].
  apply on_board_elem_of in Hon. done.
Qed.

(** C6: on an open job board, [erase job] raises [JobNotFound] when the job
    is not posted, raises [InvalidStateException] when it is posted in a
    state other than SUCCESS and FAILURE, leaves the board (and the jobs) as
    they were in both cases, and otherwise drops every posting of the job,
    keeps the others, and notifies the erasure. *)
Theorem jobboard_erase_cases (b : t) (jobs : Jobs) (job : ref) :
  _closed b = false →
  let out := erase job (b, jobs) in
  (job ∉ (_board b).*2 →
     raises out JobNotFound ∧ out.1 = (b, jobs)) ∧
  (job ∈ (_board b).*2 →
   job_state (jobs job) ≠ SUCCESS → job_state (jobs job) ≠ FAILURE →
     raises out InvalidStateException ∧ out.1 = (b, jobs)) ∧
  (job ∈ (_board b).*2 →
   job_state (jobs job) = SUCCESS ∨ job_state (jobs job) = FAILURE →
     out.2 = inr tt ∧
     _board out.1.1 = filter (λ dj, dj.2 ≠ job) (_board b) ∧
     (job ∉ (_board out.1.1).*2) ∧
     (∀ d j, j ≠ job → ((d, j) ∈ _board out.1.1 ↔ (d, j) ∈ _board b)) ∧
     notices out.1.1 = notices b ++ [Erased job] ∧
     _closed out.1.1 = false ∧
     out.1.2 = jobs).
Proof.
  intros Hopen out. split_and!.
  - intros Habs. subst out. rewrite erase_absent by done.
    split; [by eexists | done].
  - intros Hin Hs Hf. subst out. unfold erase. run_M.
    unfold closed_flag, Closable_with_store, closed_flag, closable. simpl.
    rewrite Hopen. apply on_board_elem_of in Hin. rewrite Hin. simpl.
    case_decide as Hst; [split; [by eexists | done]|].
    rewrite !elem_of_cons in Hst.
    by destruct Hst as [?|[?|?%elem_of_nil]].
  - intros Hin Hst. subst out. unfold erase. run_M.
    unfold closed_flag, Closable_with_store, closed_flag, closable. simpl.
    rewrite Hopen. apply on_board_elem_of in Hin. rewrite Hin. simpl.
    rewrite decide_False; last first.
    { intros Hn. apply Hn. rewrite !elem_of_cons. tauto. }
    simpl. split_and!; try done.
    + rewrite list_elem_of_fmap. intros [[d j] [-> Hm]].
      apply list_elem_of_filter in Hm as [Hm _]. done.
    + intros d j Hj. rewrite list_elem_of_filter. simpl. tauto.
Qed.

Lemma jobboard_erase_cases_witness :
  _closed board_example = false ∧
  raises (erase 3%nat (board_example, jobs_example)) JobNotFound ∧
  raises (erase 2%nat (board_example, jobs_example)) InvalidStateException ∧
  _board (erase 1%nat (board_example, jobs_example)).1.1 = [(20, 2%nat)].
Proof.
  split; [reflexivity|].
  pose proof (jobboard_erase_cases board_example jobs_example 3%nat eq_refl)
    as (H3 & _ & _).
  pose proof (jobboard_erase_cases board_example jobs_example 2%nat eq_refl)
    as (_ & H2 & _).
  pose proof (jobboard_erase_cases board_example jobs_example 1%nat eq_refl)
    as (_ & _ & H1).
  split_and!.
  - apply H3. by_compute.
  - apply H2; by_compute.
  - destruct H1 as (_ & -> & _); [by_compute | by left |].
    reflexivity.
Defined.

(** *** Postings before and after a date *)

Lemma posted_once_in_filter (board : list (Z * ref)) (job : ref) (d0 : Z)
    (P : Z * ref → Prop) `{!∀ dj, Decision (P dj)} :
  filter (λ dj, dj.2 = job) board = [(d0, job)] →
  job ∈ (filter P board).*2 ↔ P (d0, job).
Proof.
  intros Honce. rewrite list_elem_of_fmap. split.
  - intros ([d j] & -> & [HP Hin]%list_elem_of_filter). simpl in *.
    assert ((d, j) ∈ filter (λ dj, dj.2 = j) board) as Hin'
      by (apply list_elem_of_filter; done).
    rewrite Honce in Hin'. apply list_elem_of_singleton in Hin'.
    by rewrite <- Hin'.
  - intros HP. exists (d0, job). split; [done|].
    apply list_elem_of_filter. split; [done|].
    assert ((d0, job) ∈ filter (λ dj, dj.2 = job) board) as Hin
      by (rewrite Honce; apply list_elem_of_singleton; done).
    by apply list_elem_of_filter in Hin as [_ ?].
Qed.

(** C9, as stated, fails: a job posted at times 1 and 5 is returned both by
    [posted_before 3] and by [posted_after 3]. *)
Lemma posted_partition_counterexample :
  _closed twice_posted.1 = false ∧
  _board twice_posted.1 = [(1, 1%nat); (5, 1%nat)] ∧
  posted_before (Some 3) twice_posted = (twice_posted, inr [1%nat]) ∧
  posted_after (Some 3) twice_posted = (twice_posted, inr [1%nat]).
Proof. split_and!; reflexivity. Qed.

(** C9, amended: on an open board, [posted_before date] returns the jobs of
    the postings made strictly before [date] and [posted_after date] those
    of the postings made at or after it, both in posting order; every
    posting is selected by exactly one of the two, so that together they
    are the posted jobs with their multiplicities, and a job posted once is
    in exactly one of the two lists.  Without a date both return the job of
    every posting, in posting order.  Neither changes the board. *)
Theorem posted_before_after_split (b : t) (jobs : Jobs) (date : Z) :
  _closed b = false →
  ∃ before after,
    posted_before (Some date) (b, jobs) = ((b, jobs), inr before) ∧
    posted_after (Some date) (b, jobs) = ((b, jobs), inr after) ∧
    before = (filter (λ dj, dj.1 < date) (_board b)).*2 ∧
    after = (filter (λ dj, date ≤ dj.1) (_board b)).*2 ∧
    (∀ dj, dj ∈ _board b → (dj.1 < date ∧ ¬ (date ≤ dj.1)) ∨
                            (¬ (dj.1 < date) ∧ date ≤ dj.1)) ∧
    before ++ after ≡ₚ (_board b).*2 ∧
    (∀ job, length (filter (λ dj, dj.2 = job) (_board b)) = 1%nat →
       (job ∈ before ∧ job ∉ after) ∨ ((job ∉ before) ∧ job ∈ after)) ∧
    posted_before None (b, jobs) = ((b, jobs), inr (_board b).*2) ∧
    posted_after None (b, jobs) = ((b, jobs), inr (_board b).*2).
Proof.
  intros Hopen.
  exists ((filter (λ dj, dj.1 < date) (_board b)).*2),
         ((filter (λ dj, date ≤ dj.1) (_board b)).*2).
  unfold posted_before, posted_after. run_M.
  unfold closed_flag, Closable_with_store, closed_flag, closable. simpl.
  rewrite Hopen, select_posts_all, !select_posts_filter. simpl.
  split_and!; try done.
  - do 2 f_equal. f_equal. apply list_filter_iff. intros [d j]. simpl.
    by rewrite bool_decide_eq_true.
  - do 2 f_equal. f_equal. apply list_filter_iff. intros [d j]. simpl.
    rewrite bool_decide_eq_true. lia.
  - intros [d j] _. simpl. lia.
  - rewrite <- fmap_app.
    rewrite (list_filter_iff (λ dj, date ≤ dj.1) (λ dj, ¬ dj.1 < date))
      by (intros [d j]; simpl; lia).
    by rewrite filter_app_complement.
  - intros job Honce.
    destruct (filter (λ dj, dj.2 = job) (_board b)) as [|[d0 j0] [|??]] eqn:Hf;
      try done.
    assert (j0 = job) as ->.
    { assert ((d0, j0) ∈ filter (λ dj, dj.2 = job) (_board b)) as Hin
        by (rewrite Hf; apply list_elem_of_here).
      by apply list_elem_of_filter in Hin as [? _]. }
    rewrite !(posted_once_in_filter _ _ d0) by done. simpl. lia.
Qed.

Lemma posted_before_after_split_witness :
  _closed board_example = false ∧
  posted_before (Some 15) (board_example, jobs_example)
    = ((board_example, jobs_example), inr [1%nat]) ∧
  posted_after (Some 15) (board_example, jobs_example)
    = ((board_example, jobs_example), inr [2%nat]).
Proof.
  split; [reflexivity|].
  destruct (posted_before_after_split board_example jobs_example 15 eq_refl)
    as (before & after & -> & -> & -> & -> & _).
  split; reflexivity.
Defined.

End JobBoard.

(** ** The catalog *)

Section Catalog.
Import MemoryCatalog.

Lemma has_job_elem_of (catalogs : list (ref * ref)) (job : ref) :
  has_job catalogs job = true ↔ job ∈ catalogs.*1.
Proof.
  induction catalogs as [|[j bk] rest IH]; simpl.
  - split; [done | by intros ?%elem_of_nil].
  - rewrite elem_of_cons. case_decide as Hj; subst.
    + split; auto.
    + rewrite IH. split; [auto | by intros [?|?]].
Qed.

Lemma filter_absent (catalogs : list (ref * ref)) (job : ref) :
  job ∉ catalogs.*1 → filter (λ jb, jb.1 ≠ job) catalogs = catalogs.
Proof.
  induction catalogs as [|[j bk] rest IH]; simpl; [done|].
  rewrite not_elem_of_cons. intros [Hne Hrest].
  rewrite filter_cons, decide_True by (simpl; congruence).
  by rewrite IH.
Qed.

(** C10: on an open catalog, [erase job] returns normally whether or not the
    job has an entry: it drops every entry of the job and keeps the others
    in order, which leaves a catalog without the job as it was; the job
    board's [erase] raises [JobNotFound] for a job that is not posted. *)
Theorem catalog_erase_total (c : t) (books : Books) (job : ref) :
  _closed c = false →
  let out := erase job (c, books) in
  out.2 = inr tt ∧
  _catalogs out.1.1 = filter (λ jb, jb.1 ≠ job) (_catalogs c) ∧
  (job ∉ (_catalogs out.1.1).*1) ∧
  __contains__ job out.1 = (out.1, inr false) ∧
  (∀ j bk, j ≠ job → ((j, bk) ∈ _catalogs out.1.1 ↔ (j, bk) ∈ _catalogs c)) ∧
  _closed out.1.1 = false ∧
  out.1.2 = books ∧
  (job ∉ (_catalogs c).*1 → out.1 = (c, books)) ∧
  (∀ (b : MemoryJobBoard.t) (jobs : Jobs),
     MemoryJobBoard._closed b = false →
     job ∉ (MemoryJobBoard._board b).*2 →
     MemoryJobBoard.erase job (b, jobs)
       = ((b, jobs), inl (Exn JobNotFound ""))).
Proof.
  intros Hopen out. subst out. unfold erase. run_M.
  unfold closed_flag, Closable_with_store, closed_flag, closable. simpl.
  rewrite Hopen. simpl.
  assert (job ∉ (filter (λ jb, jb.1 ≠ job) (_catalogs c)).*1) as Hgone.
  { rewrite list_elem_of_fmap. intros ([j bk] & -> & [Hne _]%list_elem_of_filter).
    done. }
  split_and!; try done.
  - unfold __contains__. run_M. f_equal. f_equal.
    destruct (has_job _ job) eqn:Hhas; [|done].
    by apply has_job_elem_of in Hhas.
  - intros j bk Hne. rewrite list_elem_of_filter. simpl. tauto.
  - intros Habs. rewrite filter_absent by done.
    destruct c; simpl in *; by subst.
  - intros b jobs Hb Habs. by apply erase_absent.
Qed.

Lemma catalog_erase_total_witness :
  _closed catalog_example = false ∧
  erase 3%nat (catalog_example, ∅) = ((catalog_example, ∅), inr tt) ∧
  _catalogs (erase 1%nat (catalog_example, ∅)).1.1 = [(2%nat, 8%nat)].
Proof.
  split; [reflexivity|].
  pose proof (catalog_erase_total catalog_example ∅ 3%nat eq_refl)
    as (Hret & _ & _ & _ & _ & _ & _ & Hsame & _).
  pose proof (catalog_erase_total catalog_example ∅ 1%nat eq_refl)
    as (_ & Hfilter & _).
  split.
  - specialize (Hsame ltac:(by_compute)).
    destruct (erase 3%nat (catalog_example, ∅)) as [st r]. simpl in *.
    by rewrite Hsame, Hret.
  - rewrite Hfilter. reflexivity.
Defined.

End Catalog.

(** ** The log book *)

Section LogBook.
Import MemoryLogBook.

Lemma has_flow_names (st : St) (n : string) :
  book_inv st → has_flow st n ↔ n ∈ _flow_names st.1.
Proof.
  intros (_ & _ & Hnames). rewrite Hnames, list_elem_of_fmap.
  unfold has_flow. split; intros (w & ? & ?); by exists w.
Qed.

Lemma first_named_Some (details : Details) (flows : list ref) (n : string)
    (w : ref) :
  NoDup (name_of details <$> flows) →
  w ∈ flows → name_of details w = Some n →
  first_named details flows n = Some w.
Proof.
  induction flows as [|v rest IH]; simpl; intros Hnd Hin Hname.
  - by apply elem_of_nil in Hin.
  - apply NoDup_cons in Hnd as [Hv Hnd]. case_decide as Hvn.
    + apply elem_of_cons in Hin as [->|Hin]; [done|].
      exfalso. apply Hv. rewrite Hvn, <- Hname.
      by apply list_elem_of_fmap_2.
    + apply elem_of_cons in Hin as [->|Hin]; [done|]. by apply IH.
Qed.

Lemma first_named_None (details : Details) (flows : list ref) (n : string) :
  first_named details flows n = None ↔
  ∀ w, w ∈ flows → name_of details w ≠ Some n.
Proof.
  induction flows as [|v rest IH]; simpl.
  - split; [by intros _ w ?%elem_of_nil | done].
  - case_decide as Hvn.
    + split; [done|]. intros Hall. exfalso. apply (Hall v); [left | done].
    + rewrite IH. split.
      * intros Hall w [->|Hin]%elem_of_cons; auto.
      * intros Hall w Hin. apply Hall. by right.
Qed.

Lemma getitem_unknown (st : St) (n : string) :
  book_inv st → _closed st.1 = false → ¬ has_flow st n →
  __getitem__ n st = (st, inl (Exn NotFound "")).
Proof.
  intros Hinv Hopen Hno. rewrite has_flow_names in Hno by done.
  unfold __getitem__. run_M.
  unfold closed_flag, Closable_with_store, closed_flag, closable. simpl.
  rewrite Hopen. by rewrite decide_True.
Qed.

Lemma getitem_known (st : St) (n : string) (w : ref) :
  book_inv st → _closed st.1 = false →
  w ∈ _flows st.1 → name_of st.2 w = Some n →
  __getitem__ n st = (st, inr (Some w)).
Proof.
  intros Hinv Hopen Hin Hname.
  assert (n ∈ _flow_names st.1) as Hn
    by (apply has_flow_names; [done | by exists w]).
  destruct Hinv as (_ & Hnd & _).
  unfold __getitem__. run_M.
  unfold closed_flag, Closable_with_store, closed_flag, closable. simpl.
  rewrite Hopen. rewrite decide_False by auto.
  by rewrite (first_named_Some _ _ _ w).
Qed.

Lemma names_insert_fresh (details : Details) (flows : list ref) (f : ref)
    (d : MemoryFlowDetail.t) :
  (∀ w, w ∈ flows → is_Some (details !! w)) → details !! f = None →
  name_of (<[f := d]> details) <$> flows = name_of details <$> flows.
Proof.
  intros Hlive Hfresh. apply list_fmap_ext. intros i w Hw.
  unfold name_of. rewrite lookup_insert_ne; [done|].
  intros ->. apply list_elem_of_lookup_2, Hlive in Hw as [? Hw]. congruence.
Qed.

Lemma fresh_ref_unused (details : Details) :
  details !! fresh (dom details) = None.
Proof. apply not_elem_of_dom, is_fresh. Qed.

(** What [add_flow] does with a name the book does not hold. *)
Lemma add_flow_new (self : ref) (st : St) (n : string) :
  book_inv st → _closed st.1 = false → ¬ has_flow st n →
  let f := fresh (dom st.2) in
  let st' := (mk (_flows st.1 ++ [f]) ({[n]} ∪ _flow_names st.1) false,
              <[f := MemoryFlowDetail.mk self n []]> st.2) in
  add_flow self n st = (st', inr f) ∧ book_inv st'.
Proof.
  intros Hinv Hopen Hno f st'. split.
  - rewrite has_flow_names in Hno by done.
    unfold add_flow. run_M.
    unfold closed_flag, Closable_with_store, closed_flag, closable. simpl.
    rewrite Hopen. rewrite decide_False by done. simpl.
    by rewrite Hopen.
  - destruct Hinv as (Hlive & Hnd & Hnames).
    pose proof (fresh_ref_unused st.2) as Hfresh. fold f in Hfresh.
    subst st'. unfold book_inv. cbn [fst snd _flows _flow_names].
    remember (<[f := MemoryFlowDetail.mk self n []]> st.2) as details'
      eqn:Hd.
    assert (name_of details' <$> _flows st.1 = name_of st.2 <$> _flows st.1)
      as Hsame by (subst details'; by apply names_insert_fresh).
    assert (name_of details' f = Some n) as Hf
      by (unfold name_of; subst details'; by rewrite lookup_insert_eq).
    split_and!.
    + intros w [Hw| ->%list_elem_of_singleton]%elem_of_app; subst details'.
      * rewrite lookup_insert_ne; [by apply Hlive|].
        intros <-. apply Hlive in Hw as [? Hw]. congruence.
      * rewrite lookup_insert_eq. by eexists.
    + rewrite fmap_app, Hsame. cbn [fmap list_fmap]. rewrite Hf.
      apply NoDup_app. split_and!; [done | | apply NoDup_singleton].
      intros x Hx ->%list_elem_of_singleton. apply Hno.
      apply list_elem_of_fmap in Hx as (w & ? & ?). by exists w.
    + intros m. rewrite fmap_app, elem_of_app, elem_of_union, Hsame.
      cbn [fmap list_fmap]. rewrite Hf.
      rewrite elem_of_singleton, list_elem_of_singleton, Hnames.
      split; intros [?|?];
        first [by left | by right | left; congruence | right; congruence].
Qed.

Lemma add_flow_known (self : ref) (st : St) (n : string) :
  book_inv st → _closed st.1 = false → has_flow st n →
  add_flow self n st = (st, inl (Exn AlreadyExists "")).
Proof.
  intros Hinv Hopen Hhas. rewrite has_flow_names in Hhas by done.
  unfold add_flow. run_M.
  unfold closed_flag, Closable_with_store, closed_flag, closable. simpl.
  rewrite Hopen. by rewrite decide_True.
Qed.

Lemma delitem_unknown (st : St) (n : string) :
  book_inv st → _closed st.1 = false → ¬ has_flow st n →
  __delitem__ n st = (st, inl (Exn NotFound "")).
Proof.
  intros Hinv Hopen Hno. unfold __delitem__.
  unfold mbind at 1, M_bind at 1, bind at 1.
  by rewrite getitem_unknown.
Qed.

Lemma list_remove_split {A} `{EqDecision A} (x : A) (l : list A) :
  x ∈ l →
  ∃ l1 l2, l = l1 ++ x :: l2 ∧ (x ∉ l1) ∧ list_remove x l = Some (l1 ++ l2).
Proof.
  induction l as [|y rest IH]; [by intros ?%elem_of_nil|].
  intros Hin. simpl. case_decide as Hy.
  - subst y. exists [], rest. split_and!; [done | apply not_elem_of_nil | done].
  - apply elem_of_cons in Hin as [->|Hin]; [done|].
    destruct (IH Hin) as (l1 & l2 & -> & Hl1 & ->).
    exists (y :: l1), l2. split_and!; [done | | done].
    rewrite not_elem_of_cons. split; [congruence | done].
Qed.

(** What [del book[n]] does with a name the book holds. *)
Lemma delitem_known (st : St) (n : string) (w : ref) :
  book_inv st → _closed st.1 = false →
  w ∈ _flows st.1 → name_of st.2 w = Some n →
  ∃ l1 l2,
    _flows st.1 = l1 ++ w :: l2 ∧
    let st' := (mk (l1 ++ l2) (_flow_names st.1 ∖ {[n]}) false, st.2) in
    __delitem__ n st = (st', inr tt) ∧ book_inv st'.
Proof.
  intros Hinv Hopen Hin Hname.
  destruct (list_remove_split w (_flows st.1) Hin) as (l1 & l2 & Hfl & Hl1 & Hrm).
  exists l1, l2. split; [done|]. intros st'. split.
  - unfold __delitem__.
    unfold mbind at 1, M_bind at 1, bind at 1.
    rewrite (getitem_known st n w) by done.
    assert (n ∈ _flow_names st.1) as Hn
      by (apply has_flow_names; [done | by exists w]).
    run_M. rewrite decide_True by done. simpl. rewrite Hrm. simpl.
    by rewrite Hopen.
  - destruct Hinv as (Hlive & Hnd & Hnames). subst st'.
    unfold book_inv. cbn [fst snd _flows _flow_names].
    rewrite Hfl in Hlive, Hnd, Hnames.
    rewrite fmap_app, fmap_cons, Hname in Hnd, Hnames.
    apply NoDup_app in Hnd as (Hnd1 & Hcross & [Hw Hnd2]%NoDup_cons).
    split_and!.
    + intros v Hv. apply Hlive. rewrite elem_of_app, elem_of_cons.
      apply elem_of_app in Hv as [?|?]; auto.
    + rewrite fmap_app. apply NoDup_app. split_and!; [done | | done].
      intros x Hx Hx2. apply (Hcross x Hx). by right.
    + intros m. rewrite elem_of_difference, elem_of_singleton, Hnames.
      rewrite fmap_app, !elem_of_app, elem_of_cons. split.
      * intros [[?|[?|?]] Hne]; auto. congruence.
      * intros [Hm|Hm]; (split; [auto|]); intros ->.
        -- apply (Hcross _ Hm). by left.
        -- done.
Qed.

(** *** Books as programs build them

    A client reaches a book through its methods, and the flow details it
    was handed through theirs. *)

Lemma has_flow_dec (st : St) (n : string) :
  book_inv st → has_flow st n ∨ ¬ has_flow st n.
Proof.
  intros Hinv. destruct (decide (n ∈ _flow_names st.1)) as [Hn|Hn];
    [left | right]; by rewrite has_flow_names.
Qed.

Lemma getitem_state (st : St) (n : string) : (__getitem__ n st).1 = st.
Proof.
  unfold __getitem__, check_not_closed. destruct (closed_flag st); [done|].
  run_M. by case_decide.
Qed.

Lemma contains_state (st : St) (n : string) : (__contains__ n st).1 = st.
Proof.
  unfold __contains__, check_not_closed. destruct (closed_flag st); [done|].
  run_M. by case_decide.
Qed.

Lemma iter_state (st : St) : (__iter__ () st).1 = st.
Proof. unfold __iter__, check_not_closed. by destruct (closed_flag st). Qed.

Lemma names_alter (details : Details) (g : MemoryFlowDetail.t → MemoryFlowDetail.t)
    (w v : ref) :
  (∀ d, MemoryFlowDetail.name (g d) = MemoryFlowDetail.name d) →
  name_of (alter g w details) v = name_of details v.
Proof.
  intros Hg. unfold name_of. destruct (decide (w = v)) as [->|Hne].
  - rewrite lookup_alter_eq. destruct (details !! v); simpl; [|done].
    by rewrite Hg.
  - by rewrite lookup_alter_ne.
Qed.

Lemma on_detail_inv {R} (w : ref) (m : M MemoryFlowDetail.t R) (st : St) :
  (∀ d, MemoryFlowDetail.name (m d).1 = MemoryFlowDetail.name d) →
  book_inv st → book_inv (on_detail w m st).
Proof.
  intros Hm (Hlive & Hnd & Hnames). unfold on_detail, book_inv.
  cbn [fst snd].
  assert (name_of (alter (λ d, (m d).1) w st.2) <$> _flows st.1
          = name_of st.2 <$> _flows st.1) as Hsame.
  { apply list_fmap_ext. intros ???. by apply names_alter. }
  rewrite Hsame. split_and!; [|done|done].
  intros v Hv. apply Hlive in Hv. destruct (decide (w = v)) as [->|Hne].
  - rewrite lookup_alter_eq. by apply fmap_is_Some.
  - by rewrite lookup_alter_ne.
Qed.

Lemma closed_or_open (st : St) : _closed st.1 = true ∨ _closed st.1 = false.
Proof. destruct (_closed st.1); auto. Qed.

(** Every method keeps the book consistent. *)
Lemma perform_inv (st : St) (c : call) :
  book_inv st → book_inv (perform st c).
Proof.
  intros Hinv. destruct c as [self n|n| | |n|n| |w tn md|w tn]; simpl.
  - destruct (closed_or_open st) as [Hc|Ho].
    { unfold add_flow. by rewrite check_closed. }
    destruct (has_flow_dec st n Hinv) as [Hhas|Hno].
    + by rewrite add_flow_known.
    + destruct (add_flow_new self st n Hinv Ho Hno) as [-> ?]. done.
  - by rewrite getitem_state.
  - by rewrite iter_state.
  - done.
  - by rewrite contains_state.
  - destruct (closed_or_open st) as [Hc|Ho].
    { unfold __delitem__, __getitem__.
      unfold mbind at 1, M_bind at 1, bind at 1. by rewrite check_closed. }
    destruct (has_flow_dec st n Hinv) as [(w & Hw & Hn)|Hno].
    + destruct (delitem_known st n w Hinv Ho Hw Hn)
        as (l1 & l2 & _ & -> & ?). done.
    + by rewrite delitem_unknown.
  - done.
  - apply on_detail_inv; [|done]. by intros [].
  - apply on_detail_inv; [|done]. by intros [].
Qed.

Lemma init_inv (details : Details) : book_inv (__init__, details).
Proof.
  unfold book_inv. simpl. split_and!.
  - by intros w ?%elem_of_nil.
  - apply NoDup_nil_2.
  - intros n. split; [by intros ?%not_elem_of_empty | by intros ?%elem_of_nil].
Qed.

(** Every book a program can build is consistent. *)
Lemma reachable_inv (details : Details) (calls : list call) :
  book_inv (perform_all (__init__, details) calls).
Proof.
  unfold perform_all. generalize (init_inv details).
  generalize (__init__, details). induction calls as [|c calls IH]; simpl.
  - done.
  - intros st Hinv. by apply IH, perform_inv.
Qed.

(** No method other than the removal of [n] takes the flow detail named [n]
    out of the book or renames it. *)
Lemma perform_keeps (st : St) (c : call) (n : string) (f : ref) :
  book_inv st → holds_flow st n f → c ≠ DelItem n →
  holds_flow (perform st c) n f.
Proof.
  intros Hinv [Hf Hn] Hc.
  destruct c as [self m|m| | |m|m| |w tn md|w tn]; simpl.
  - destruct (closed_or_open st) as [Hcl|Ho].
    { unfold add_flow. by rewrite check_closed. }
    destruct (has_flow_dec st m Hinv) as [Hhas|Hno].
    + by rewrite add_flow_known.
    + destruct (add_flow_new self st m Hinv Ho Hno) as [-> _].
      unfold holds_flow. cbn [fst snd _flows]. split.
      * apply elem_of_app. by left.
      * unfold name_of. rewrite lookup_insert_ne; [done|].
        intros Heq. destruct Hinv as (Hlive & _).
        apply Hlive in Hf as [? Hf]. rewrite <- Heq in Hf.
        by rewrite fresh_ref_unused in Hf.
  - by rewrite getitem_state.
  - by rewrite iter_state.
  - done.
  - by rewrite contains_state.
  - destruct (closed_or_open st) as [Hcl|Ho].
    { unfold __delitem__, __getitem__.
      unfold mbind at 1, M_bind at 1, bind at 1. by rewrite check_closed. }
    destruct (has_flow_dec st m Hinv) as [(w & Hw & Hm)|Hno].
    + destruct (delitem_known st m w Hinv Ho Hw Hm)
        as (l1 & l2 & Hfl & -> & _).
      unfold holds_flow. cbn [fst snd _flows]. split; [|done].
      rewrite Hfl in Hf. rewrite elem_of_app, elem_of_cons in Hf.
      rewrite elem_of_app. destruct Hf as [?|[->|?]]; auto.
      exfalso. apply Hc. f_equal. congruence.
    + by rewrite delitem_unknown.
  - done.
  - unfold on_detail, holds_flow. cbn [fst snd]. split; [done|].
    rewrite names_alter; [done | by intros []].
  - unfold on_detail, holds_flow. cbn [fst snd]. split; [done|].
    rewrite names_alter; [done | by intros []].
Qed.

Lemma perform_all_keeps (calls : list call) (st : St) (n : string) (f : ref) :
  book_inv st → holds_flow st n f → DelItem n ∉ calls →
  book_inv (perform_all st calls) ∧ holds_flow (perform_all st calls) n f.
Proof.
  unfold perform_all. revert st.
  induction calls as [|c calls IH]; simpl; intros st Hinv Hf Hno; [done|].
  apply not_elem_of_cons in Hno as [Hc Hno].
  apply IH; [by apply perform_inv | by apply perform_keeps | done].
Qed.

(** What the methods do on a consistent, open book. *)
Lemma consistent_book_spec (st : St) :
  book_inv st → _closed st.1 = false →
  (∀ self n, has_flow st n →
     add_flow self n st = (st, inl (Exn AlreadyExists ""))) ∧
  (∀ self n, ¬ has_flow st n →
     ∃ f, st.2 !! f = None ∧
       add_flow self n st =
         ((mk (_flows st.1 ++ [f]) ({[n]} ∪ _flow_names st.1) false,
           <[f := MemoryFlowDetail.mk self n []]> st.2), inr f) ∧
       ∀ later, DelItem n ∉ later →
         let st2 := perform_all (add_flow self n st).1 later in
         _closed st2.1 = false →
         __getitem__ n st2 = (st2, inr (Some f))) ∧
  (∀ n, ¬ has_flow st n → __getitem__ n st = (st, inl (Exn NotFound ""))) ∧
  (∀ n, ¬ has_flow st n → __delitem__ n st = (st, inl (Exn NotFound ""))) ∧
  (∀ n w, w ∈ _flows st.1 → name_of st.2 w = Some n →
     __getitem__ n st = (st, inr (Some w))).
Proof.
  intros Hinv Hopen. split_and!.
  - intros self n Hhas. by apply add_flow_known.
  - intros self n Hno. exists (fresh (dom st.2)).
    destruct (add_flow_new self st n Hinv Hopen Hno) as [Hadd Hinv'].
    split_and!; [apply fresh_ref_unused | done |].
    intros later Hlater st2 Hopen2. subst st2. rewrite Hadd in *.
    cbn [fst] in *.
    edestruct (perform_all_keeps later) as [Hinv2 [Hf2 Hn2]];
      [exact Hinv' | | exact Hlater |].
    + split; cbn [fst snd _flows].
      * apply elem_of_app. right. by apply list_elem_of_singleton.
      * unfold name_of. by rewrite lookup_insert_eq.
    + by apply getitem_known.
  - intros n Hno. by apply getitem_unknown.
  - intros n Hno. by apply delitem_unknown.
  - intros n w Hw Hn. by apply getitem_known.
Qed.

(** C8: take a log book as a program has built it, by any calls of its
    methods and of the methods of its flow details, and open.  Then
    [add_flow n] raises [AlreadyExists] when a flow detail named [n] is in
    the book, and otherwise makes a new flow detail named [n], appends it
    and returns it; looking up or removing a name the book does not hold
    raises [NotFound]; looking up a name returns the flow detail in the
    book under that name, which is the one [add_flow] returned for it,
    whatever was done to the book since, short of removing that name. *)
Theorem logbook_add_lookup_remove (details : Details) (calls : list call) :
  let st := perform_all (__init__, details) calls in
  _closed st.1 = false →
  (∀ self n, has_flow st n →
     add_flow self n st = (st, inl (Exn AlreadyExists ""))) ∧
  (∀ self n, ¬ has_flow st n →
     ∃ f, st.2 !! f = None ∧
       add_flow self n st =
         ((mk (_flows st.1 ++ [f]) ({[n]} ∪ _flow_names st.1) false,
           <[f := MemoryFlowDetail.mk self n []]> st.2), inr f) ∧
       ∀ later, DelItem n ∉ later →
         let st2 := perform_all (add_flow self n st).1 later in
         _closed st2.1 = false →
         __getitem__ n st2 = (st2, inr (Some f))) ∧
  (∀ n, ¬ has_flow st n → __getitem__ n st = (st, inl (Exn NotFound ""))) ∧
  (∀ n, ¬ has_flow st n → __delitem__ n st = (st, inl (Exn NotFound ""))) ∧
  (∀ n w, w ∈ _flows st.1 → name_of st.2 w = Some n →
     __getitem__ n st = (st, inr (Some w))).
Proof.
  intros st Hopen. apply consistent_book_spec; [apply reachable_inv | done].
Qed.

Lemma logbook_add_lookup_remove_witness :
  _closed book_example.1 = false ∧
  add_flow 0%nat "boot" book_example
    = (book_example, inl (Exn AlreadyExists "")) ∧
  __getitem__ "halt" book_example = (book_example, inl (Exn NotFound "")) ∧
  __delitem__ "halt" book_example = (book_example, inl (Exn NotFound "")) ∧
  __getitem__ "boot" book_example = (book_example, inr (Some 0%nat)).
Proof.
  assert (has_flow book_example "boot") as Hboot.
  { exists 0%nat. split; [by_compute | reflexivity]. }
  assert (¬ has_flow book_example "halt") as Hhalt.
  { rewrite has_flow_names by apply reachable_inv. by_compute. }
  destruct (logbook_add_lookup_remove ∅ [AddFlow 0%nat "boot"] eq_refl)
    as (Hdup & _ & Hget & Hdel & Hknown).
  split_and!; [reflexivity | by apply Hdup | by apply Hget | by apply Hdel |].
  apply Hknown; [by_compute | reflexivity].
Defined.

End LogBook.

(** ** Use after [close] *)

Section Closed.

Lemma guarded_rejected {S A R} `{Closable S} (meth_name : string)
    (meth : A → M S R) (args : A) (self : S) :
  closed_flag self = true →
  rejected (check_not_closed meth_name meth args) self.
Proof.
  intros Hc. unfold rejected, raises. rewrite check_closed by done.
  split; [by eexists | done].
Qed.

(** C7, as stated, fails: [len()] of a closed catalog and of a closed log
    book return the length. *)
Lemma closed_rejects_all_counterexample :
  closed_flag closed_catalog = true ∧
  MemoryCatalog.__len__ closed_catalog = (closed_catalog, inr 0%nat) ∧
  closed_flag closed_book = true ∧
  MemoryLogBook.__len__ closed_book = (closed_book, inr 1%nat).
Proof. split_and!; reflexivity. Qed.

(** C7, amended: [close] sets the flag of a catalog, a log book and a job
    board and returns; from then on each method wrapped in
    [check_not_closed], and the log book's [__delitem__] which starts with
    such a method, raises [ClosedException] and leaves the object as it
    was; [__len__] of a closed catalog or log book still returns the
    length; a flow detail has no flag, and each of its methods returns. *)
Theorem closed_rejects_guarded
    (c : MemoryCatalog.St) (l : MemoryLogBook.St) (b : MemoryJobBoard.St) :
  closed_flag c = true → closed_flag l = true → closed_flag b = true →
  (* the catalog *)
  (∀ job, rejected (MemoryCatalog.create_or_fetch job) c) ∧
  (∀ job, rejected (MemoryCatalog.erase job) c) ∧
  MemoryCatalog.__len__ c
    = (c, inr (length (MemoryCatalog._catalogs c.1))) ∧
  (* the log book *)
  (∀ self n, rejected (MemoryLogBook.add_flow self n) l) ∧
  (∀ n, rejected (MemoryLogBook.__getitem__ n) l) ∧
  rejected (MemoryLogBook.__iter__ ()) l ∧
  (∀ n, rejected (MemoryLogBook.__contains__ n) l) ∧
  (∀ n, rejected (MemoryLogBook.__delitem__ n) l) ∧
  MemoryLogBook.__len__ l
    = (l, inr (length (MemoryLogBook._flows l.1))) ∧
  (* the job board *)
  (∀ self utcnow job, rejected (MemoryJobBoard.post self utcnow job) b) ∧
  (∀ date, rejected (MemoryJobBoard.posted_before date) b) ∧
  (∀ job, rejected (MemoryJobBoard.erase job) b) ∧
  (∀ date, rejected (MemoryJobBoard.posted_after date) b) ∧
  (∀ timeout, rejected (MemoryJobBoard.await timeout) b) ∧
  (* [close] itself *)
  (∀ c0, MemoryCatalog.close c0 = ((MemoryCatalog.close c0).1, inr ()) ∧
         closed_flag (MemoryCatalog.close c0).1 = true) ∧
  (∀ l0, MemoryLogBook.close l0 = ((MemoryLogBook.close l0).1, inr ()) ∧
         closed_flag (MemoryLogBook.close l0).1 = true) ∧
  (∀ b0, MemoryJobBoard.close b0 = ((MemoryJobBoard.close b0).1, inr ()) ∧
         closed_flag (MemoryJobBoard.close b0).1 = true) ∧
  (* flow details *)
  (∀ (d : MemoryFlowDetail.t) task_name metadata,
     raised (MemoryFlowDetail.__iter__ d) = None ∧
     raised (MemoryFlowDetail.__contains__ task_name d) = None ∧
     raised (MemoryFlowDetail.__getitem__ task_name d) = None ∧
     raised (MemoryFlowDetail.__len__ d) = None ∧
     raised (MemoryFlowDetail.add_task task_name metadata d) = None ∧
     raised (MemoryFlowDetail.__delitem__ task_name d) = None).
Proof.
  intros Hc Hl Hb. split_and!; try done;
    try (intros; by apply guarded_rejected).
  intros n.
  assert (∃ e, MemoryLogBook.__delitem__ n l = (l, inl (Exn ClosedException e)))
    as [e He].
  { unfold MemoryLogBook.__delitem__.
    unfold mbind at 1, M_bind at 1, bind at 1.
    unfold MemoryLogBook.__getitem__. rewrite check_closed by done.
    by eexists. }
  unfold rejected, raises. rewrite He. split; [by eexists | done].
Qed.

Lemma closed_rejects_guarded_witness :
  closed_flag closed_catalog = true ∧ closed_flag closed_book = true ∧
  closed_flag closed_board = true ∧
  rejected (MemoryCatalog.erase 1%nat) closed_catalog ∧
  rejected (MemoryLogBook.__getitem__ "boot") closed_book ∧
  rejected (MemoryJobBoard.erase 1%nat) closed_board.
Proof.
  destruct (closed_rejects_guarded closed_catalog closed_book closed_board
              eq_refl eq_refl eq_refl)
    as (_ & Hc & _ & _ & Hl & _ & _ & _ & _ & _ & _ & Hb & _).
  split_and!; [reflexivity | reflexivity | reflexivity | apply Hc | apply Hl
              | apply Hb].
Defined.

End Closed.

(** ** The graph flow: scheduling *)

Section Scheduler.
Import GraphFlow.
Context {world : Type}.
Implicit Types (ts : list (@Task world)) (es : list (node * string * node)).
Implicit Types (l remaining scheduled : list node).

Lemma ready_true es remaining c :
  ready es remaining c = true ↔
  ∀ p n, (p, n, c) ∈ es → p ∉ remaining.
Proof.
  unfold ready. rewrite forallb_forall. split.
  - intros Hall p n Hin Hrem.
    apply list_elem_of_In, Hall in Hin. simpl in Hin.
    apply negb_true_iff, bool_decide_eq_false in Hin. by apply Hin.
  - intros Hall [[p n] c'] Hin%list_elem_of_In. simpl.
    apply negb_true_iff, bool_decide_eq_false. intros [-> Hrem].
    by apply (Hall p n).
Qed.

Lemma round_split es remaining :
  filter (λ c, ready es remaining c = true) remaining ++
  filter (λ c, ready es remaining c ≠ true) remaining ≡ₚ remaining.
Proof. apply filter_app_complement. Qed.

Lemma schedule_sound es rounds remaining scheduled l :
  NoDup (scheduled ++ remaining) →
  (∀ p n c, (p, n, c) ∈ es → p ∈ scheduled ++ remaining) →
  respects es scheduled →
  schedule rounds es remaining scheduled = Some l →
  l ≡ₚ scheduled ++ remaining ∧ respects es l.
Proof.
  revert remaining scheduled.
  induction rounds as [|rounds IH]; intros remaining scheduled Hnd Hends Hres;
    destruct remaining as [|r0 rest]; simpl; try done.
  - intros [= <-]. by rewrite app_nil_r.
  - intros [= <-]. by rewrite app_nil_r.
  - set (remaining := r0 :: rest) in *.
    fold (filter (λ c, ready es remaining c = true) remaining).
    fold (filter (λ c, ready es remaining c ≠ true) remaining).
    pose proof (round_split es remaining) as Hsplit.
    destruct (filter (λ c, ready es remaining c = true) remaining)
      as [|c0 now'] eqn:Hnow; [done|].
    rewrite <- Hnow in *. intros Hl.
    set (now := filter (λ c, ready es remaining c = true) remaining) in *.
    set (later := filter (λ c, ready es remaining c ≠ true) remaining) in *.
    assert ((scheduled ++ now) ++ later ≡ₚ scheduled ++ remaining) as Hperm
      by (by rewrite <- app_assoc, Hsplit).
    apply IH in Hl.
    + destruct Hl as [Hl ?]. split; [by rewrite Hl | done].
    + by rewrite Hperm.
    + intros p n c Hin. rewrite Hperm. by eapply Hends.
    + intros p n c i Hin Hi.
      destruct (decide (i < length scheduled)%nat) as [Hlt|Hge].
      * rewrite lookup_app_l in Hi by done.
        destruct (Hres p n c i Hin Hi) as (j & Hj & Hp).
        exists j. split; [done|]. rewrite lookup_app_l by lia. done.
      * rewrite lookup_app_r in Hi by lia.
        apply list_elem_of_lookup_2 in Hi. subst now.
        apply list_elem_of_filter in Hi as [Hready _].
        pose proof (proj1 (ready_true es remaining c) Hready p n Hin) as Hp.
        pose proof (Hends p n c Hin) as Hin'.
        apply elem_of_app in Hin' as [Hs|?]; [|done].
        apply list_elem_of_lookup_1 in Hs as [j Hj].
        exists j. split.
        -- apply lookup_lt_Some in Hj. lia.
        -- by rewrite lookup_app_l by (by apply lookup_lt_Some in Hj).
Qed.

Lemma elem_of_indexed ts i t : (i, t) ∈ indexed ts ↔ ts !! i = Some t.
Proof.
  unfold indexed. rewrite elem_of_lookup_imap. split.
  - by intros (j & u & [= -> ->] & ?).
  - intros ?. by exists i, t.
Qed.

Lemma elem_of_provides_index ts n p :
  p ∈ provides_index ts n ↔ ∃ t, ts !! p = Some t ∧ n ∈ provides t.
Proof.
  unfold provides_index. rewrite list_elem_of_fmap. split.
  - intros ([i t] & -> & [Hn Hin]%list_elem_of_filter).
    apply elem_of_indexed in Hin. by exists t.
  - intros (t & Ht & Hn). exists (p, t). split; [done|].
    apply list_elem_of_filter. split; [done | by apply elem_of_indexed].
Qed.

Lemma elem_of_build_edges ts p n c :
  (p, n, c) ∈ build_edges ts ↔
  ∃ tp tc, ts !! p = Some tp ∧ ts !! c = Some tc ∧
           n ∈ provides tp ∧ n ∈ requires tc.
Proof.
  unfold build_edges. rewrite list_elem_of_bind. split.
  - intros ([i tc] & Hin & Hc%elem_of_indexed). simpl in Hin.
    apply list_elem_of_bind in Hin as (m & Hin & Hm).
    apply list_elem_of_bind in Hin as (q & Hin & Hq).
    apply list_elem_of_singleton in Hin as [= -> -> ->].
    apply elem_of_provides_index in Hq as (tp & ? & ?).
    by exists tp, tc.
  - intros (tp & tc & Hp & Hc & Hprov & Hreq). exists (c, tc).
    split; [|by apply elem_of_indexed]. simpl.
    apply list_elem_of_bind. exists n. split; [|done].
    apply list_elem_of_bind. exists p. split; [by apply list_elem_of_singleton|].
    apply elem_of_provides_index. by exists tp.
Qed.

Lemma build_edges_ends ts p n c :
  (p, n, c) ∈ build_edges ts →
  p ∈ seq 0 (length ts) ∧ c ∈ seq 0 (length ts).
Proof.
  intros (tp & tc & Hp & Hc & _)%elem_of_build_edges.
  apply lookup_lt_Some in Hp, Hc. rewrite !elem_of_seq. lia.
Qed.

(** What [order] returns is a valid execution order. *)
Lemma order_topological ts l :
  order (mkGraph (seq 0 (length ts)) (build_edges ts)) = inr l →
  topological (mkGraph (seq 0 (length ts)) (build_edges ts)) l.
Proof.
  unfold order, topological. cbn [nodes edges].
  destruct (schedule _ _ _ _) as [l'|] eqn:Hs; [|done]. intros [= ->].
  apply schedule_sound in Hs; [done | | |].
  - apply NoDup_seq.
  - intros p n c Hin. by apply build_edges_ends in Hin as [? _].
  - by intros p n c i _ ?.
Qed.

(** Validation fails with [InvalidStateException] only. *)
Lemma connect_raises ts allow e :
  connect ts allow = inl e → exn_cls e = InvalidStateException.
Proof.
  unfold connect, order.
  destruct (negb allow && ambiguous ts); [by intros [= <-]|].
  destruct (unresolved ts); [by intros [= <-]|].
  destruct (schedule _ _ _ _); [done | by intros [= <-]].
Qed.

Lemma connect_graph ts allow g :
  connect ts allow = inr g →
  g = mkGraph (seq 0 (length ts)) (build_edges ts) ∧
  (allow = false → ambiguous ts = false) ∧
  unresolved ts = false ∧
  ∃ l, order g = inr l.
Proof.
  unfold connect.
  destruct (negb allow && ambiguous ts) eqn:Hamb; [done|].
  destruct (unresolved ts); [done|].
  destruct (order _) as [e|l] eqn:Hord; [done|]. intros [= <-].
  split_and!; [done | | done | by exists l].
  intros ->. done.
Qed.

Lemma indexed_nodes ts : (indexed ts).*1 = seq 0 (length ts).
Proof.
  apply list_eq. intros i. unfold indexed.
  rewrite list_lookup_fmap, list_lookup_imap.
  destruct (ts !! i) as [t|] eqn:Ht; simpl.
  - symmetry. apply lookup_seq. split; [done | by apply lookup_lt_Some in Ht].
  - symmetry. apply lookup_ge_None. rewrite length_seq.
    by apply lookup_ge_None in Ht.
Qed.

Lemma provides_index_NoDup ts n : NoDup (provides_index ts n).
Proof.
  unfold provides_index.
  apply (sublist_NoDup _ ((indexed ts).*1)).
  - rewrite indexed_nodes. apply NoDup_seq.
  - apply fmap_sublist, sublist_filter.
Qed.

Lemma provides_index_nil ts n :
  provides_index ts n = [] ↔ ∀ t, t ∈ ts → n ∉ provides t.
Proof.
  split.
  - intros Hnil t [i Hi]%list_elem_of_lookup_1 Hn.
    assert (i ∈ provides_index ts n) as Hin
      by (apply elem_of_provides_index; by exists t).
    rewrite Hnil in Hin. by apply elem_of_nil in Hin.
  - intros Hall. destruct (provides_index ts n) as [|p rest] eqn:Hp; [done|].
    assert (p ∈ provides_index ts n) as Hin by (rewrite Hp; by left).
    apply elem_of_provides_index in Hin as (t & Ht & Hn).
    exfalso. apply (Hall t); [|done]. by eapply list_elem_of_lookup_2.
Qed.

Lemma unresolved_true ts :
  unresolved ts = true ↔
  ∃ t n, t ∈ ts ∧ n ∈ requires t ∧ ∀ p, p ∈ ts → n ∉ provides p.
Proof.
  unfold unresolved. rewrite existsb_exists. split.
  - intros (t & Ht%list_elem_of_In & Hex). apply existsb_exists in Hex
      as (n & Hn%list_elem_of_In & Hnil%bool_decide_eq_true).
    exists t, n. split_and!; [done | done |]. by apply provides_index_nil.
  - intros (t & n & Ht & Hn & Hnone). exists t. split; [by apply list_elem_of_In|].
    apply existsb_exists. exists n. split; [by apply list_elem_of_In|].
    apply bool_decide_eq_true. by apply provides_index_nil.
Qed.

Lemma ambiguous_true ts i j ti tj n :
  i ≠ j → ts !! i = Some ti → ts !! j = Some tj →
  n ∈ provides ti → n ∈ provides tj →
  ambiguous ts = true.
Proof.
  intros Hij Hi Hj Hni Hnj. unfold ambiguous. apply existsb_exists.
  exists ti. split; [by eapply list_elem_of_In, list_elem_of_lookup_2|].
  apply existsb_exists. exists n. split; [by apply list_elem_of_In|].
  apply bool_decide_eq_true.
  assert (i ∈ provides_index ts n) as Hpi
    by (apply elem_of_provides_index; by exists ti).
  assert (j ∈ provides_index ts n) as Hpj
    by (apply elem_of_provides_index; by exists tj).
  pose proof (provides_index_NoDup ts n) as Hnd.
  destruct (provides_index ts n) as [|a [|b rest]]; simpl.
  - by apply elem_of_nil in Hpi.
  - apply list_elem_of_singleton in Hpi, Hpj. congruence.
  - lia.
Qed.

(** Tasks that all wait for one another are never scheduled. *)
Lemma schedule_stuck es rounds remaining scheduled :
  remaining ≠ [] →
  (∀ c, c ∈ remaining → ∃ p n, (p, n, c) ∈ es ∧ p ∈ remaining) →
  schedule rounds es remaining scheduled = None.
Proof.
  intros Hne Hwait. destruct remaining as [|r0 rest]; [done|].
  destruct rounds as [|rounds]; simpl; [done|].
  set (remaining := r0 :: rest) in *.
  fold (filter (λ c, ready es remaining c = true) remaining).
  destruct (filter (λ c, ready es remaining c = true) remaining)
    as [|c now] eqn:Hnow; [done|].
  assert (c ∈ filter (λ c, ready es remaining c = true) remaining) as Hc
    by (rewrite Hnow; by left).
  apply list_elem_of_filter in Hc as [Hready Hin].
  destruct (Hwait c Hin) as (p & n & He & Hp).
  by apply (proj1 (ready_true es remaining c) Hready p n He) in Hp.
Qed.

(** If the graph has a valid execution order at all, the scheduler finds
    one. *)
Lemma schedule_complete es l0 rounds remaining scheduled :
  respects es l0 → (∀ c, c ∈ remaining → c ∈ l0) →
  (length remaining ≤ rounds)%nat →
  ∃ l, schedule rounds es remaining scheduled = Some l.
Proof.
  intros Hres. revert remaining scheduled.
  induction rounds as [|rounds IH]; intros remaining scheduled Hsub Hlen;
    destruct remaining as [|r0 rest]; simpl in *; try (by eexists); [lia|].
  set (remaining := r0 :: rest) in *.
  fold (filter (λ c, ready es remaining c = true) remaining).
  fold (filter (λ c, ready es remaining c ≠ true) remaining).
  pose proof (round_split es remaining) as Hsplit.
  assert (∃ c, c ∈ filter (λ c, ready es remaining c = true) remaining)
    as [c Hc].
  { destruct (list_find (λ c, c ∈ remaining) l0) as [[i c]|] eqn:Hfind.
    - apply list_find_Some in Hfind as (Hi & Hin & Hmin).
      exists c. apply list_elem_of_filter. split; [|done].
      apply ready_true. intros p n He Hp.
      destruct (Hres p n c i He Hi) as (j & Hj & Hpj).
      by apply (Hmin j p).
    - exfalso. apply list_find_None in Hfind.
      rewrite Forall_forall in Hfind. apply (Hfind r0).
      + apply Hsub. by left.
      + by left. }
  destruct (filter (λ c, ready es remaining c = true) remaining)
    as [|c0 now] eqn:Hnow; [by apply elem_of_nil in Hc|].
  apply IH.
  - intros d [_ Hd]%list_elem_of_filter. by apply Hsub.
  - apply Permutation_length in Hsplit. rewrite length_app in Hsplit.
    simpl in Hsplit. lia.
Qed.

Lemma order_complete (g : Graph) l0 :
  topological g l0 → ∃ l, order g = inr l.
Proof.
  intros [Hperm Hres]. unfold order.
  destruct (schedule_complete (edges g) l0 (length (nodes g)) (nodes g) [])
    as [l ->]; [done | | done | by exists l].
  intros c Hc. by rewrite Hperm.
Qed.

End Scheduler.

(** ** The graph flow: running *)

Section Execution.
Import GraphFlow.
Context {world : Type}.
Implicit Types (t : @Task world) (ts ord : list (@Task world)).
Implicit Types (f : @Flow world) (r : @Run world) (ctx : world).
Implicit Types (done : list (@Task world * Outcome)).

Lemma add_pending t f :
  state f = PENDING →
  add t f = (mkFlow (flow_name f) PENDING (allow_same_inputs f)
                    (tasks f ++ [t]) (results f), inr ()).
Proof.
  intros Hst. unfold add. run_M. rewrite decide_True by done.
  by rewrite Hst.
Qed.

Lemma add_not_pending t f :
  state f ≠ PENDING →
  add t f = (f, inl (Exn InvalidStateException "flow is not pending")).
Proof. intros Hst. unfold add. run_M. by rewrite decide_False. Qed.

Lemma build_from ts f :
  state f = PENDING →
  foldl (λ f t, (add t f).1) f ts
    = mkFlow (flow_name f) PENDING (allow_same_inputs f) (tasks f ++ ts)
             (results f).
Proof.
  revert f. induction ts as [|t ts IH]; intros f Hst; simpl.
  - rewrite app_nil_r. destruct f; simpl in *; by subst.
  - rewrite add_pending by done. rewrite IH by done. simpl.
    by rewrite <- app_assoc.
Qed.

Lemma build_eq flow_name allow ts :
  build flow_name allow ts = mkFlow flow_name PENDING allow ts [].
Proof. unfold build. by rewrite build_from. Qed.

Lemma Flow_order_raises f e :
  Flow_order f = inl e → exn_cls e = InvalidStateException.
Proof.
  unfold Flow_order, Flow_connect.
  destruct (connect _ _) as [e'|g] eqn:Hc.
  - intros [= <-]. by eapply connect_raises.
  - apply connect_graph in Hc as (_ & _ & _ & l & ->). done.
Qed.

Lemma Flow_order_connect f e :
  Flow_connect f = inl e → Flow_order f = inl e.
Proof. unfold Flow_order. by intros ->. Qed.

(** A flow that does not validate is not run. *)
Lemma run_invalid f ctx e :
  state f = PENDING → Flow_order f = inl e →
  run f ctx = (mkRun (with_state f FAILURE) ctx [], inl e).
Proof.
  intros Hst Hord. unfold run, run_steps. run_M.
  rewrite decide_True by done. rewrite Hord. done.
Qed.

Lemma run_valid f ctx ord :
  state f = PENDING → Flow_order f = inr ord →
  run f ctx = execute ord (mkRun (with_state f RUNNING) ctx []).
Proof.
  intros Hst Hord. unfold run, run_steps. run_M.
  rewrite decide_True by done. rewrite Hord. done.
Qed.

Lemma execute_cons_ok t ord r w raw :
  work t (context r) (resolve_inputs (results (flow r)) t) = (w, inr raw) →
  execute (t :: ord) r =
    execute ord
      (mkRun (with_result (flow r) t
                (mkOutcome raw (resolve_inputs (results (flow r)) t)))
             w
             (calls r ++ [Invoked (name t)
                            (resolve_inputs (results (flow r)) t)])).
Proof. intros Hw. simpl. run_M. unfold invoke. by rewrite Hw. Qed.

Lemma execute_cons_fail t ord r w e :
  work t (context r) (resolve_inputs (results (flow r)) t) = (w, inl e) →
  execute (t :: ord) r =
    revert_and_fail e
      (mkRun (flow r) w
             (calls r ++ [Invoked (name t)
                            (resolve_inputs (results (flow r)) t)])).
Proof. intros Hw. simpl. run_M. unfold invoke. by rewrite Hw. Qed.

(** Compensations leave the flow alone, call no task and never raise. *)
Lemma compensate_all_spec e done r :
  let out := compensate_all e done r in
  flow out.1 = flow r ∧ out.2 = inr () ∧
  invoked (calls out.1) = invoked (calls r) ∧
  calls r `prefix_of` calls out.1.
Proof.
  revert r. induction done as [|[t o] done IH]; intros r; simpl; [done|].
  unfold compensate. simpl. destruct (revert t) as [undo|]; run_M.
  - destruct (undo _ _ _) as [w sw].
    match goal with |- context [compensate_all e done ?r'] =>
      destruct (IH r') as (Hf & Hr & Hc & Hp);
      destruct (compensate_all e done r') as [r2 [e2|[]]] eqn:Hcomp end;
      simpl in *; [done|].
    split_and!; [done | done | |].
    + rewrite Hc. unfold invoked.
      rewrite omap_app. simpl. by rewrite app_nil_r.
    + etrans; [|exact Hp]. by apply prefix_app_r.
  - destruct (IH r) as (Hf & Hr & Hc & Hp).
    destruct (compensate_all e done r) as [r2 [e2|[]]]; simpl in *; done.
Qed.

Lemma revert_and_fail_spec e r :
  let out := revert_and_fail e r in
  flow out.1 = with_state (flow r) FAILURE ∧ out.2 = inl e ∧
  invoked (calls out.1) = invoked (calls r) ∧
  calls r `prefix_of` calls out.1.
Proof.
  unfold revert_and_fail. run_M.
  match goal with |- context [compensate_all e ?d ?r'] =>
    destruct (compensate_all_spec e d r') as (Hf & Hr & Hc & Hp);
    destruct (compensate_all e d r') as [r2 [e2|[]]] end;
    simpl in *; [done|].
  rewrite Hf. done.
Qed.

Lemma well_recorded_snoc done t raw :
  well_recorded done →
  well_recorded (done ++ [(t, mkOutcome raw (resolve_inputs done t))]).
Proof.
  intros Hrec i u o Hi.
  destruct (decide (i < length done)%nat) as [Hlt|Hge].
  - rewrite lookup_app_l in Hi by done.
    rewrite take_app_le by lia. by apply Hrec.
  - rewrite lookup_app_r in Hi by lia.
    apply list_lookup_singleton_Some in Hi as [Hi [= <- <-]].
    assert (i = length done) as -> by lia.
    rewrite take_app_length. done.
Qed.

(** What [execute] does: it calls the tasks of the order one after the
    other, up to the first that raises; the tasks before that one are
    recorded as completed, in that order. *)
Lemma execute_spec ord r :
  let out := execute ord r in
  ∃ (completed : list (Task * Outcome)) (k : nat),
    flow_name (flow out.1) = flow_name (flow r) ∧
    allow_same_inputs (flow out.1) = allow_same_inputs (flow r) ∧
    tasks (flow out.1) = tasks (flow r) ∧
    results (flow out.1) = results (flow r) ++ completed ∧
    completed.*1 = take (length completed) ord ∧
    invoked (calls out.1) = invoked (calls r) ++ (name <$> take k ord) ∧
    (calls r ++ ((λ c : Task * Outcome,
                    Invoked (name c.1) (resolved_inputs c.2)) <$> completed))
      `prefix_of` calls out.1 ∧
    (well_recorded (results (flow r)) →
     well_recorded (results (flow out.1))) ∧
    ((out.2 = inr () ∧ state (flow out.1) = SUCCESS ∧
      length completed = length ord ∧ k = length ord ∧
      calls out.1 = calls r ++
        ((λ c : Task * Outcome,
            Invoked (name c.1) (resolved_inputs c.2)) <$> completed)) ∨
     (∃ e, out.2 = inl e ∧ state (flow out.1) = FAILURE ∧
           (length completed < length ord)%nat ∧
           k = S (length completed))).
Proof.
  revert r. induction ord as [|t ord IH]; intros r out.
  - exists [], 0%nat. subst out. simpl.
    rewrite !app_nil_r. split_and!; try done. by left.
  - subst out.
    destruct (work t (context r) (resolve_inputs (results (flow r)) t))
      as [w [e|raw]] eqn:Hw.
    + rewrite (execute_cons_fail _ _ _ _ _ Hw).
      match goal with |- context [revert_and_fail e ?r'] =>
        destruct (revert_and_fail_spec e r') as (Hf & Hr & Hc & Hp);
        destruct (revert_and_fail e r') as [r2 res] end.
      simpl in *. subst res. exists [], 1%nat. rewrite Hf, Hc. simpl.
      rewrite !app_nil_r. unfold invoked. rewrite omap_app. simpl.
      split_and!; try done.
      * etrans; [|exact Hp]. by apply prefix_app_r.
      * right. exists e. split_and!; [done..|lia|done].
    + rewrite (execute_cons_ok _ _ _ _ _ Hw).
      match goal with |- context [execute ord ?r'] =>
        destruct (IH r') as (completed & k & Hn & Ha & Ht & Hres & Hpre &
                             Hinv & Hcalls' & Hrec & Hend);
        destruct (execute ord r') as [r2 res] end.
      cbn [fst snd flow context calls with_result flow_name
           allow_same_inputs tasks results] in *.
      exists ((t, mkOutcome raw (resolve_inputs (results (flow r)) t))
                :: completed), (S k).
      split_and!; try done.
      * rewrite Hres. by rewrite <- app_assoc.
      * rewrite fmap_cons. cbn [fst length]. rewrite firstn_cons.
        by rewrite Hpre.
      * rewrite Hinv. unfold invoked. rewrite omap_app. cbn [omap].
        rewrite firstn_cons, fmap_cons. by rewrite <- app_assoc.
      * rewrite fmap_cons. by rewrite <- app_assoc in Hcalls'.
      * intros Hr. apply Hrec. by apply well_recorded_snoc.
      * destruct Hend as [(-> & Hs & Hl & -> & Hcalls)|(e & -> & Hs & Hl & ->)].
        -- left. cbn [length]. split_and!; [done | done | by rewrite Hl | done |].
           rewrite Hcalls, fmap_cons. by rewrite <- app_assoc.
        -- right. exists e. cbn [length]. split_and!; [done | done | lia | done].
Qed.

(** Tasks that do not raise all complete. *)
Lemma execute_all_succeed ord r :
  (∀ t, t ∈ ord → ∀ w kw, ∃ w' raw, work t w kw = (w', inr raw)) →
  (execute ord r).2 = inr ().
Proof.
  revert r. induction ord as [|t ord IH]; intros r Hok; [done|].
  destruct (Hok t ltac:(by left) (context r)
              (resolve_inputs (results (flow r)) t)) as (w & raw & Hw).
  rewrite (execute_cons_ok _ _ _ _ _ Hw). apply IH.
  intros u Hu. apply Hok. by right.
Qed.

Lemma resolve_inputs_lookup done t n :
  resolve_inputs done t !! n =
    if decide (n ∈ requires t) then fan_in (supplied done n) else None.
Proof.
  unfold resolve_inputs. generalize (requires t). intros reqs.
  induction reqs as [|m reqs IH].
  - cbn [omap list_omap list_to_map foldr]. rewrite lookup_empty.
    case_decide as Hin; [by apply elem_of_nil in Hin | done].
  - cbn [omap list_omap].
    destruct (fan_in (supplied done m)) as [v|] eqn:Hm; cbn [fmap option_fmap option_map].
    + cbn [list_to_map foldr]. destruct (decide (m = n)) as [->|Hne].
      * rewrite lookup_insert_eq. rewrite decide_True by (by left). done.
      * cbn [uncurry]. rewrite lookup_insert_ne by done. rewrite IH.
        destruct (decide (n ∈ reqs)) as [Hin|Hout];
          destruct (decide (n ∈ m :: reqs)) as [Hin'|Hout']; try done.
        -- exfalso. apply Hout'. by right.
        -- apply elem_of_cons in Hin' as [?|?]; congruence.
    + rewrite IH.
      destruct (decide (n ∈ reqs)) as [Hin|Hout];
        destruct (decide (n ∈ m :: reqs)) as [Hin'|Hout']; try done.
      * exfalso. apply Hout'. by right.
      * apply elem_of_cons in Hin' as [->|?]; done.
Qed.

Lemma resolve_inputs_nil t : resolve_inputs [] t = ∅.
Proof.
  apply map_eq. intros n. rewrite resolve_inputs_lookup, lookup_empty.
  by case_decide.
Qed.

Lemma scheduled_tasks ts (l : list node) k :
  (∀ i, i ∈ l → is_Some (ts !! i)) →
  omap (λ i, ts !! i) l !! k = l !! k ≫= λ i, ts !! i.
Proof.
  revert k. induction l as [|i l IH]; intros k Hall; [done|].
  destruct (Hall i ltac:(by left)) as [t Ht]. simpl. rewrite Ht.
  destruct k as [|k]; simpl; [done|]. apply IH.
  intros j Hj. apply Hall. by right.
Qed.

Lemma scheduled_length ts (l : list node) :
  (∀ i, i ∈ l → is_Some (ts !! i)) →
  length (omap (λ i, ts !! i) l) = length l.
Proof.
  induction l as [|i l IH]; intros Hall; [done|].
  destruct (Hall i ltac:(by left)) as [t Ht]. simpl. rewrite Ht. simpl.
  f_equal. apply IH. intros j Hj. apply Hall. by right.
Qed.

(** A run of a flow that validates: the tasks are called in the order the
    scheduler returns, up to the first that raises. *)
Lemma run_spec (fname : string) allow ts ctx g :
  connect ts allow = inr g →
  let out := run (build fname allow ts) ctx in
  ∃ l k,
    order g = inr l ∧ topological g l ∧
    g = mkGraph (seq 0 (length ts)) (build_edges ts) ∧
    let ord := omap (λ i, ts !! i) l in
    Flow_order (build fname allow ts) = inr ord ∧
    tasks (flow out.1) = ts ∧
    (results (flow out.1)).*1 = take (length (results (flow out.1))) ord ∧
    invoked (calls out.1) = name <$> take k ord ∧
    ((λ c : Task * Outcome, Invoked (name c.1) (resolved_inputs c.2))
       <$> results (flow out.1)) `prefix_of` calls out.1 ∧
    well_recorded (results (flow out.1)) ∧
    ((out.2 = inr () ∧ state (flow out.1) = SUCCESS ∧
      length (results (flow out.1)) = length ord ∧ k = length ord) ∨
     (∃ e, out.2 = inl e ∧ state (flow out.1) = FAILURE ∧
           (length (results (flow out.1)) < length ord)%nat ∧
           k = S (length (results (flow out.1))))).
Proof.
  intros Hconn out.
  pose proof Hconn as (Hg & _ & _ & l & Hl)%connect_graph.
  assert (topological g l) as Htopo
    by (subst g; by apply order_topological).
  set (ord := omap (λ i, ts !! i) l).
  assert (Flow_order (build fname allow ts) = inr ord) as Hord.
  { unfold Flow_order, Flow_connect. rewrite build_eq. simpl.
    by rewrite Hconn, Hl. }
  subst out. rewrite (run_valid _ _ ord); [|by rewrite build_eq|done].
  rewrite build_eq in *.
  match goal with |- context [execute ord ?r'] =>
    destruct (execute_spec ord r')
      as (completed & k & _ & _ & Ht & Hres & Hpre & Hinv & Hcalls & Hrec
          & Hend);
    destruct (execute ord r') as [r2 res] end.
  cbn [fst snd flow context calls with_state flow_name allow_same_inputs
       tasks results] in *.
  rewrite app_nil_l in Hres, Hcalls. rewrite app_nil_l in Hinv.
  exists l, k. rewrite Hres.
  split_and!; try done.
  - rewrite <- Hres. apply Hrec. by intros i t o ?.
  - destruct Hend as [(-> & Hs & Hlen & -> & _)|(e & -> & Hs & Hlen & ->)];
      [left | right; exists e]; done.
Qed.

End Execution.

(** ** The graph flow: what the tests check *)

Section GraphFlowTests.
Import GraphFlow.

Lemma invalid_flow_not_run {world} (fname : string) (allow : bool)
    (ts : list (@Task world)) (ctx : world) (e : exn) :
  connect ts allow = inl e →
  let f := build fname allow ts in
  let out := run f ctx in
  (∃ msg, Flow_connect f = inl (Exn InvalidStateException msg)) ∧
  (∃ msg, Flow_order f = inl (Exn InvalidStateException msg)) ∧
  raises out InvalidStateException ∧
  state (flow out.1) = FAILURE ∧
  results (flow out.1) = [] ∧
  calls out.1 = [] ∧
  context out.1 = ctx ∧
  (∃ msg, Flow_order (flow out.1) = inl (Exn InvalidStateException msg)).
Proof.
  intros Hconn f out.
  pose proof (connect_raises _ _ _ Hconn) as Hcls.
  destruct e as [cls msg]. simpl in Hcls. subst cls.
  assert (Flow_connect f = inl (Exn InvalidStateException msg)) as Hfc
    by (subst f; unfold Flow_connect; by rewrite build_eq).
  assert (Flow_order f = inl (Exn InvalidStateException msg)) as Hfo
    by (by apply Flow_order_connect).
  subst out.
  rewrite (run_invalid f ctx (Exn InvalidStateException msg));
    [|by subst f; rewrite build_eq|done].
  simpl. split_and!; try done; try by exists msg.
  subst f. by rewrite build_eq.
Qed.

(** C2: when some task of a flow requires a name that no task of the flow
    provides, [connect], [order] and [run] raise [InvalidStateException];
    [run] leaves the flow in FAILURE with no result, having called no task,
    and [order] raises after it as before. *)
Theorem unresolved_requirement_rejected {world} (fname : string)
    (allow : bool) (ts : list (@Task world)) (ctx : world) :
  (∃ t n, t ∈ ts ∧ n ∈ requires t ∧ ∀ p, p ∈ ts → n ∉ provides p) →
  let f := build fname allow ts in
  let out := run f ctx in
  (∃ msg, Flow_connect f = inl (Exn InvalidStateException msg)) ∧
  (∃ msg, Flow_order f = inl (Exn InvalidStateException msg)) ∧
  raises out InvalidStateException ∧
  state (flow out.1) = FAILURE ∧
  results (flow out.1) = [] ∧
  calls out.1 = [] ∧
  context out.1 = ctx ∧
  (∃ msg, Flow_order (flow out.1) = inl (Exn InvalidStateException msg)).
Proof.
  intros Hun%unresolved_true.
  assert (∃ e, connect ts allow = inl e) as [e He].
  { unfold connect. rewrite Hun.
    destruct (negb allow && ambiguous ts); by eexists. }
  by eapply invalid_flow_not_run.
Qed.

Lemma unresolved_requirement_rejected_witness :
  let out := run (build "test-flow" true no_provider_tasks) [] in
  raises out InvalidStateException ∧
  state (flow out.1) = FAILURE ∧ results (flow out.1) = [].
Proof.
  destruct (unresolved_requirement_rejected "test-flow" true
              no_provider_tasks [])
    as (_ & _ & Hr & Hs & Hres & _); [|done].
  exists (ProvidesRequiresTask "test1" ["a"; "b"] ["c"; "d"]), "c".
  split_and!; [by left | by left |].
  intros p ->%list_elem_of_singleton. by_compute.
Defined.

(** C5: a flow of two tasks, each requiring a name the other provides, does
    not validate: [connect], [order] and [run] raise
    [InvalidStateException], and [run] leaves the flow in FAILURE having
    called no task. *)
Theorem cycle_rejected {world} (fname : string) (allow : bool)
    (t1 t2 : @Task world) (ctx : world) (n1 n2 : string) :
  n1 ∈ requires t1 → n1 ∈ provides t2 →
  n2 ∈ requires t2 → n2 ∈ provides t1 →
  let f := build fname allow [t1; t2] in
  let out := run f ctx in
  (∃ msg, Flow_connect f = inl (Exn InvalidStateException msg)) ∧
  (∃ msg, Flow_order f = inl (Exn InvalidStateException msg)) ∧
  raises out InvalidStateException ∧
  state (flow out.1) = FAILURE ∧
  results (flow out.1) = [] ∧
  calls out.1 = [] ∧
  context out.1 = ctx ∧
  (∃ msg, Flow_order (flow out.1) = inl (Exn InvalidStateException msg)).
Proof.
  intros Hr1 Hp2 Hr2 Hp1.
  assert (∃ e, connect [t1; t2] allow = inl e) as [e He];
    [|by eapply invalid_flow_not_run].
  unfold connect.
  destruct (negb allow && ambiguous [t1; t2]); [by eexists|].
  destruct (unresolved [t1; t2]); [by eexists|].
  unfold order. cbn [nodes edges length seq].
  rewrite schedule_stuck; [by eexists | done |].
  intros c Hc.
  apply elem_of_cons in Hc as [->|Hc];
    [|apply list_elem_of_singleton in Hc as ->].
  - exists 1%nat, n1. split; [|by_compute].
    apply elem_of_build_edges. by exists t2, t1.
  - exists 0%nat, n2. split; [|by_compute].
    apply elem_of_build_edges. by exists t1, t2.
Qed.

Lemma cycle_rejected_witness :
  let out := run (build "test-flow" true looping_tasks) [] in
  raises out InvalidStateException ∧
  state (flow out.1) = FAILURE ∧ calls out.1 = [].
Proof.
  destruct (cycle_rejected "test-flow" true
              (ProvidesRequiresTask "test1" ["a"; "b"] ["c"; "d"; "e"])
              (ProvidesRequiresTask "test2" ["c"; "d"; "e"] ["a"; "b"])
              [] "c" "a")
    as (_ & _ & Hr & Hs & _ & Hc & _); try by_compute.
  done.
Defined.

(** C1: in a flow whose two tasks are scheduled as [t1] then [t2], where
    [t1] returns [r1] and [t2] raises [e], [run] calls [t1], calls [t2],
    then calls the compensation of [t1], once, with [r1] and a cause
    showing the flow in REVERTING, calls no other compensation, leaves the
    flow in FAILURE with [t1] as its one completed task, and raises [e]. *)
Theorem revert_protocol {world} (fname : string) (allow : bool)
    (ts : list (@Task world)) (t1 t2 : @Task world) (ctx w1 w2 : world)
    (undo : world → option (gmap string value) → Cause → world * option exn)
    (r1 : option (gmap string value)) (e : exn) :
  Flow_order (build fname allow ts) = inr [t1; t2] →
  revert t1 = Some undo →
  work t1 ctx ∅ = (w1, inr r1) →
  work t2 w1 (resolve_inputs [(t1, mkOutcome r1 ∅)] t2) = (w2, inl e) →
  let out := run (build fname allow ts) ctx in
  let cause := mkCause fname REVERTING e in
  out.2 = inl e ∧
  state (flow out.1) = FAILURE ∧
  results (flow out.1) = [(t1, mkOutcome r1 ∅)] ∧
  calls out.1 =
    [Invoked (name t1) ∅;
     Invoked (name t2) (resolve_inputs [(t1, mkOutcome r1 ∅)] t2);
     Compensated (name t1) r1 cause] ∧
  compensated (calls out.1) = [(name t1, r1, cause)] ∧
  context out.1 = (undo w2 r1 cause).1.
Proof.
  intros Hord Hundo Hw1 Hw2 out cause. subst out.
  rewrite (run_valid _ _ [t1; t2]); [|by rewrite build_eq|done].
  rewrite build_eq.
  rewrite (execute_cons_ok _ _ _ w1 r1);
    [|cbn [flow context results with_state]; by rewrite resolve_inputs_nil].
  cbn [flow context calls results with_state with_result flow_name state
       allow_same_inputs tasks]. rewrite resolve_inputs_nil.
  rewrite (execute_cons_fail _ _ _ w2 e) by done.
  cbn [flow context calls results app].
  unfold revert_and_fail. run_M. unfold compensate. simpl. rewrite Hundo.
  run_M. fold cause. destruct (undo w2 r1 cause) as [w3 swallowed]. done.
Qed.

Lemma revert_protocol_witness :
  let out := run (build "test-flow" true reverting_tasks) [] in
  out.2 = inl (Exn PyException "Dead") ∧
  state (flow out.1) = FAILURE ∧
  compensated (calls out.1) =
    [("run1", Some {["a" := VInt 1]},
      mkCause "test-flow" REVERTING (Exn PyException "Dead"))] ∧
  context out.1 = ["run1"].
Proof.
  pose proof (revert_protocol "test-flow" true reverting_tasks
     (mkTask "run1" [] ["a"]
        (λ w kwargs, (w, inr (Some {["a" := VInt 1]}))) (Some run1_revert))
     (mkTask "run2" ["a"] ["c"]
        (λ w kwargs, (w, inl (Exn PyException "Dead"))) None)
     [] [] [] run1_revert (Some {["a" := VInt 1]}) (Exn PyException "Dead")
     eq_refl eq_refl eq_refl eq_refl) as (He & Hs & _ & _ & Hc & Hctx).
  split_and!; [exact He | exact Hs | exact Hc |].
  rewrite Hctx. reflexivity.
Defined.

Lemma completed_before {world} (ts : list (@Task world)) (l : list node)
    (completed : list (@Task world * Outcome)) (k c : nat) tc o p tp n :
  topological (mkGraph (seq 0 (length ts)) (build_edges ts)) l →
  completed.*1 = take (length completed) (omap (λ i, ts !! i) l) →
  completed !! k = Some (tc, o) →
  l !! k = Some c →
  ts !! p = Some tp → n ∈ provides tp → n ∈ requires tc →
  ts !! c = Some tc →
  ∃ j o', (j < k)%nat ∧ l !! j = Some p ∧ completed !! j = Some (tp, o').
Proof.
  intros [Hperm Hres] Hpre Hk Hl Hp Hprov Hreq Hc. cbn [nodes edges] in *.
  assert ((p, n, c) ∈ build_edges ts) as He
    by (apply elem_of_build_edges; by exists tp, tc).
  destruct (Hres p n c k He Hl) as (j & Hj & Hlj).
  exists j.
  assert (∀ i, i ∈ l → is_Some (ts !! i)) as Hall.
  { intros i Hi. rewrite Hperm in Hi. apply elem_of_seq in Hi.
    apply lookup_lt_is_Some. lia. }
  assert (j < length completed)%nat as Hjlen
    by (apply lookup_lt_Some in Hk; lia).
  assert (completed.*1 !! j = Some tp) as Hcj.
  { rewrite Hpre, lookup_take_lt by done.
    rewrite scheduled_tasks by done. by rewrite Hlj. }
  rewrite list_lookup_fmap in Hcj.
  destruct (completed !! j) as [[tp' o']|] eqn:Hcj'; [|done].
  simpl in Hcj. injection Hcj as ->. by exists o'.
Qed.

(** C3: with [allow_same_inputs] false, a flow in which two tasks provide
    the same name does not validate: [connect] and [run] raise
    [InvalidStateException] and [run] leaves the flow in FAILURE; with
    [allow_same_inputs] true validation does not look at that, and succeeds
    when every required name has a producer and the graph has a valid
    order.  In a run of a flow that validates, every producer of a name
    has completed before a task that requires it is called, and that task
    is passed, under the name, the values the producers returned for it:
    the value itself if there is one, the list of them in completion order
    if there are several. *)
Theorem ambiguity_gate {world} (fname : string) (ts : list (@Task world))
    (ctx : world) :
  (∀ i j ti tj n,
     i ≠ j → ts !! i = Some ti → ts !! j = Some tj →
     n ∈ provides ti → n ∈ provides tj →
     let f := build fname false ts in
     let out := run f ctx in
     (∃ msg, Flow_connect f = inl (Exn InvalidStateException msg)) ∧
     raises out InvalidStateException ∧
     state (flow out.1) = FAILURE ∧
     results (flow out.1) = [] ∧ calls out.1 = []) ∧
  ((∀ t n, t ∈ ts → n ∈ requires t → ∃ p, p ∈ ts ∧ n ∈ provides p) →
   (∃ l0, topological (mkGraph (seq 0 (length ts)) (build_edges ts)) l0) →
   Flow_connect (build fname true ts)
     = inr (mkGraph (seq 0 (length ts)) (build_edges ts))) ∧
  (∀ allow g,
     Flow_connect (build fname allow ts) = inr g →
     let out := run (build fname allow ts) ctx in
     ∀ k c o n,
       results (flow out.1) !! k = Some (c, o) → n ∈ requires c →
       let before := take k (results (flow out.1)) in
       Invoked (name c) (resolved_inputs o) ∈ calls out.1 ∧
       resolved_inputs o !! n = fan_in (supplied before n) ∧
       (∀ p tp, ts !! p = Some tp → n ∈ provides tp →
          ∃ j o', (j < k)%nat ∧ results (flow out.1) !! j = Some (tp, o')) ∧
       (∀ v, supplied before n = [v] → resolved_inputs o !! n = Some v) ∧
       (∀ v1 v2 vs, supplied before n = v1 :: v2 :: vs →
          resolved_inputs o !! n = Some (VList (v1 :: v2 :: vs)))).
Proof.
  split_and!.
  - intros i j ti tj n Hij Hi Hj Hni Hnj f out.
    assert (connect ts false
            = inl (Exn InvalidStateException "ambiguous provider")) as Hc.
    { unfold connect.
      by rewrite (ambiguous_true ts i j ti tj n Hij Hi Hj Hni Hnj). }
    destruct (invalid_flow_not_run fname false ts ctx _ Hc)
      as (? & _ & ? & ? & ? & ? & _). done.
  - intros Hres [l0 Htopo]. unfold Flow_connect. rewrite build_eq. simpl.
    unfold connect. simpl.
    destruct (unresolved ts) eqn:Hun.
    { apply unresolved_true in Hun as (t & n & Ht & Hn & Hnone).
      destruct (Hres t n Ht Hn) as (p & Hp & Hpn). by apply Hnone in Hpn. }
    by destruct (order_complete _ l0 Htopo) as [l ->].
  - intros allow g Hconn out k c o n Hk Hn before.
    unfold Flow_connect in Hconn. rewrite build_eq in Hconn. simpl in Hconn.
    destruct (run_spec fname allow ts ctx g Hconn)
      as (l & kinv & Hl & Htopo & -> & _ & _ & Hpre & _ & Hcalls & Hrec & _).
    fold out in Hpre, Hcalls, Hrec.
    assert (resolved_inputs o !! n = fan_in (supplied before n)) as Hin.
    { rewrite (Hrec k c o Hk), resolve_inputs_lookup.
      by rewrite decide_True. }
    split_and!.
    + destruct Hcalls as [rest ->]. apply elem_of_app. left.
      apply list_elem_of_fmap. exists (c, o). split; [done|].
      by eapply list_elem_of_lookup_2.
    + done.
    + intros p tp Hp Hprov.
      assert ((results (flow out.1)).*1 !! k = Some c) as Hck
        by (by rewrite list_lookup_fmap, Hk).
      rewrite Hpre in Hck.
      rewrite lookup_take_lt in Hck by (by apply lookup_lt_Some in Hk).
      assert (∀ i, i ∈ l → is_Some (ts !! i)) as Hall.
      { intros i Hi. destruct Htopo as [Hperm _]. cbn [nodes] in Hperm.
        rewrite Hperm in Hi. apply elem_of_seq in Hi.
        apply lookup_lt_is_Some. lia. }
      rewrite scheduled_tasks in Hck by done.
      destruct (l !! k) as [ci|] eqn:Hlk; [|done]. simpl in Hck.
      destruct (completed_before ts l (results (flow out.1)) k ci c o p tp n)
        as (j & o' & Hj & _ & Hcj); try done.
      by exists j, o'.
    + intros v Hv. by rewrite Hin, Hv.
    + intros v1 v2 vs Hv. by rewrite Hin, Hv.
Qed.

Lemma ambiguity_gate_witness :
  (let out := run (build "test-flow" false multi_provider_disallowed) [] in
   raises out InvalidStateException ∧ state (flow out.1) = FAILURE) ∧
  Flow_connect (build "test-flow" true multi_provider_allowed)
    = inr (mkGraph [0; 1; 2]%nat
             [(0, "z", 1); (0, "y", 2); (1, "y", 2); (0, "z", 2)]%nat) ∧
  (let out := run (build "test-flow" true multi_provider_allowed) [] in
   context out.1 = ["test6"; "test7"; "test8"] ∧
   ∃ c o, results (flow out.1) !! 2%nat = Some (c, o) ∧
          resolved_inputs o !! "y" = Some (VList [VBool true; VBool true]) ∧
          resolved_inputs o !! "z" = Some (VBool true)).
Proof.
  split.
  - destruct (ambiguity_gate "test-flow" multi_provider_disallowed [])
      as (Hgate & _ & _).
    destruct (Hgate 0%nat 1%nat
                (ProvidesRequiresTask "test6" ["y"] [])
                (ProvidesRequiresTask "test7" ["y"] []) "y")
      as (_ & Hr & Hs & _); try done; by_compute.
  - split.
    { destruct (ambiguity_gate "test-flow" multi_provider_allowed [])
        as (_ & Hopen & _).
      rewrite Hopen; [reflexivity | |].
      - intros t n Ht Hn.
        exists (ProvidesRequiresTask "test6" ["y"; "z"] []).
        split; [by left|]. unfold multi_provider_allowed in Ht.
        repeat (apply elem_of_cons in Ht as [->|Ht]);
          [..|by apply elem_of_nil in Ht]; simpl in *.
        + by apply elem_of_nil in Hn.
        + apply list_elem_of_singleton in Hn as ->. by_compute.
        + repeat (apply elem_of_cons in Hn as [->|Hn]);
            [..|by apply elem_of_nil in Hn]; by_compute.
      - exists [0; 1; 2]%nat. by apply order_topological. }
    destruct (ambiguity_gate "test-flow" multi_provider_allowed [])
      as (_ & _ & Hfan).
    split; [reflexivity|].
    exists (ProvidesRequiresTask "test8" [] ["y"; "z"]),
           (mkOutcome (Some ∅)
              {["y" := VList [VBool true; VBool true]; "z" := VBool true]}).
    split; [reflexivity|].
    split.
    + destruct (Hfan true _ eq_refl 2%nat _ _ "y" eq_refl ltac:(by_compute))
        as (_ & _ & _ & _ & Hmany).
      by apply (Hmany (VBool true) (VBool true) []).
    + destruct (Hfan true _ eq_refl 2%nat _ _ "z" eq_refl ltac:(by_compute))
        as (_ & _ & _ & Hone & _).
      by apply (Hone (VBool true)).
Defined.

Lemma happy_build_edges {world} (run1 run2 run3 run4 :
    world → gmap string value → world * (exn + option (gmap string value))) :
  build_edges (happy_tasks run1 run2 run3 run4) = happy_edges.
Proof. reflexivity. Qed.

Ltac earlier_position :=
  first [ exists 0%nat; split; [lia | reflexivity]
        | exists 1%nat; split; [lia | reflexivity]
        | exists 2%nat; split; [lia | reflexivity] ].

Lemma happy_order_valid (l : list node) :
  l = [0; 1; 2; 3]%nat ∨ l = [0; 2; 1; 3]%nat →
  topological (mkGraph (seq 0 4) happy_edges) l.
Proof.
  intros Hl. split; cbn [nodes edges].
  - destruct Hl as [-> | ->]; [done|]. simpl. apply Permutation_skip.
    apply Permutation_swap.
  - intros p n c i Hin Hi. unfold happy_edges in Hin.
    repeat (apply elem_of_cons in Hin as [[= -> -> ->]|Hin]);
      [..|by apply elem_of_nil in Hin];
      destruct Hl as [-> | ->];
      (destruct i as [|[|[|[|?]]]]; simplify_eq/=; earlier_position).
Qed.

Lemma happy_order_forced (l : list node) :
  topological (mkGraph (seq 0 4) happy_edges) l →
  l = [0; 1; 2; 3]%nat ∨ l = [0; 2; 1; 3]%nat.
Proof.
  intros [Hperm Hres]. cbn [nodes edges seq] in *.
  assert (NoDup l) as Hnd by (rewrite Hperm; by_compute).
  assert (length l = 4%nat) as Hlen by (by rewrite Hperm).
  assert (∀ x, (x < 4)%nat → ∃ i, l !! i = Some x) as Hpos.
  { intros x Hx. apply list_elem_of_lookup_1. rewrite Hperm.
    apply (elem_of_seq 0 4). lia. }
  destruct (Hpos 0%nat) as [i0 H0]; [lia|].
  destruct (Hpos 1%nat) as [i1 H1]; [lia|].
  destruct (Hpos 2%nat) as [i2 H2]; [lia|].
  destruct (Hpos 3%nat) as [i3 H3]; [lia|].
  assert (∀ p n c ip ic, (p, n, c) ∈ happy_edges →
            l !! ip = Some p → l !! ic = Some c → (ip < ic)%nat) as Hlt.
  { intros p n c ip ic He Hp Hc. destruct (Hres p n c ic He Hc) as (j & Hj & Hpj).
    by rewrite (NoDup_lookup l ip j p Hnd Hp Hpj). }
  pose proof (Hlt 0 "a" 1 i0 i1 ltac:(by_compute) H0 H1)%nat.
  pose proof (Hlt 0 "a" 2 i0 i2 ltac:(by_compute) H0 H2)%nat.
  pose proof (Hlt 2 "b" 3 i2 i3 ltac:(by_compute) H2 H3)%nat.
  pose proof (Hlt 1 "c" 3 i1 i3 ltac:(by_compute) H1 H3)%nat.
  assert (i3 < 4)%nat by (apply lookup_lt_Some in H3; lia).
  assert (i1 ≠ i2) by (intros ->; congruence).
  destruct l as [|a [|b [|c [|d [|? ?]]]]]; simpl in Hlen; try lia.
  assert (i0 = 0 ∧ i3 = 3 ∧ ((i1 = 1 ∧ i2 = 2) ∨ (i1 = 2 ∧ i2 = 1)))%nat
    as (-> & -> & [[-> ->]|[-> ->]]) by lia;
    simplify_eq/=; auto.
Qed.

(** C4: when a flow validates, the scheduler returns every task once, each
    after all producers of the names it requires, and [run] calls the tasks
    in that order, up to the first that raises; a successful run completes
    all of them.  For the four tasks of [test_happy_flow] the two valid
    orders are run1, run2, run3, run4 and run1, run3, run2, run4: run1 is
    first and run4 last in both; the flow validates, and when no body
    raises the run succeeds and has called each of the four tasks once,
    run1 first and run4 last. *)
Theorem run_order_topological {world} (fname : string) (allow : bool)
    (ctx : world) :
  (∀ ts g,
     connect ts allow = inr g →
     let out := run (build fname allow ts) ctx in
     ∃ l k,
       order g = inr l ∧
       l ≡ₚ seq 0 (length ts) ∧
       (∀ i c tc p tp n,
          l !! i = Some c → ts !! c = Some tc → ts !! p = Some tp →
          n ∈ requires tc → n ∈ provides tp →
          ∃ j, (j < i)%nat ∧ l !! j = Some p) ∧
       invoked (calls out.1) = name <$> take k (omap (λ i, ts !! i) l) ∧
       (results (flow out.1)).*1
         = take (length (results (flow out.1))) (omap (λ i, ts !! i) l) ∧
       (out.2 = inr () →
          state (flow out.1) = SUCCESS ∧
          invoked (calls out.1) = name <$> omap (λ i, ts !! i) l ∧
          (results (flow out.1)).*1 = omap (λ i, ts !! i) l ∧
          length (results (flow out.1)) = length ts)) ∧
  (∀ run1 run2 run3 run4,
     let ts := happy_tasks run1 run2 run3 run4 in
     let g := mkGraph (seq 0 4) (build_edges ts) in
     (∀ l, topological g l ↔
           l = [0; 1; 2; 3]%nat ∨ l = [0; 2; 1; 3]%nat) ∧
     connect ts allow = inr g ∧
     ((∀ t, t ∈ ts → ∀ w kw, ∃ w' raw, work t w kw = (w', inr raw)) →
      let out := run (build fname allow ts) ctx in
      out.2 = inr () ∧
      state (flow out.1) = SUCCESS ∧
      invoked (calls out.1) = ["run1"; "run2"; "run3"; "run4"])).
Proof.
  split.
  - intros ts g Hconn out.
    destruct (run_spec fname allow ts ctx g Hconn)
      as (l & k & Hl & [Hperm Hres] & -> & _ & _ & Hpre & Hinv & _ & _ & Hend).
    fold out in Hpre, Hinv, Hend. cbn [nodes edges] in *.
    assert (∀ i, i ∈ l → is_Some (ts !! i)) as Hall.
    { intros i Hi. rewrite Hperm in Hi. apply elem_of_seq in Hi.
      apply lookup_lt_is_Some. lia. }
    assert (length (omap (λ i, ts !! i) l) = length ts) as Hlen.
    { rewrite scheduled_length by done.
      by rewrite Hperm, length_seq. }
    exists l, k. split_and!; try done.
    + intros i c tc p tp n Hi Hc Hp Hreq Hprov.
      apply (Hres p n c i); [|done].
      apply elem_of_build_edges. by exists tp, tc.
    + intros Hok.
      destruct Hend as [(_ & Hs & Hlr & ->)|(e & He & _)]; [|congruence].
      rewrite Hlr, take_ge in Hpre by done. rewrite take_ge in Hinv by done.
      split_and!; [done | done | done | congruence].
  - intros run1 run2 run3 run4 ts g. subst g ts.
    rewrite happy_build_edges.
    set (ts := happy_tasks run1 run2 run3 run4).
    assert (connect ts allow = inr (mkGraph (seq 0 4) happy_edges)) as Hconn
      by (by destruct allow).
    split_and!.
    + intros l. split; [apply happy_order_forced | apply happy_order_valid].
    + done.
    + intros Hok out.
      destruct (run_spec fname allow ts ctx _ Hconn)
        as (l & k & Hl & _ & _ & Hord & _ & _ & Hinv & _ & _ & Hend).
      fold out in Hinv, Hend.
      assert (l = [0; 1; 2; 3]%nat) as -> by (by injection Hl).
      assert (out.2 = inr ()) as Hret.
      { assert (state (build fname allow ts) = PENDING) as Hst
          by (by rewrite build_eq).
        subst out. rewrite (run_valid _ ctx _ Hst Hord).
        apply execute_all_succeed. intros t Ht. apply Hok.
        by vm_compute in Ht. }
      destruct Hend as [(_ & Hs & _ & ->)|(e & He & _)]; [|congruence].
      done.
Qed.

Lemma run_order_topological_witness :
  let ts := happy_tasks (world := list string)
              (λ w _, (w ++ ["ran1"], inr (Some {["a" := VInt 1]})))
              (λ w _, (w ++ ["ran2"], inr (Some {["c" := VInt 3]})))
              (λ w _, (w ++ ["ran3"], inr (Some {["b" := VInt 2]})))
              (λ w _, (w ++ ["ran4"], inr None)) in
  let out := run (build "test-flow" true ts) [] in
  out.2 = inr () ∧ state (flow out.1) = SUCCESS ∧
  invoked (calls out.1) = ["run1"; "run2"; "run3"; "run4"] ∧
  context out.1 = ["ran1"; "ran2"; "ran3"; "ran4"] ∧
  ∃ l, order (mkGraph (seq 0 4) happy_edges) = inr l ∧ l ≡ₚ seq 0 4.
Proof.
  intros ts out.
  destruct (run_order_topological "test-flow" true ([] : list string))
    as (Hany & Hhappy).
  destruct (Hany ts (mkGraph (seq 0 4) happy_edges) eq_refl)
    as (l & _ & Hl & Hperm & _).
  destruct (Hhappy
              (λ w _, (w ++ ["ran1"], inr (Some {["a" := VInt 1]})))
              (λ w _, (w ++ ["ran2"], inr (Some {["c" := VInt 3]})))
              (λ w _, (w ++ ["ran3"], inr (Some {["b" := VInt 2]})))
              (λ w _, (w ++ ["ran4"], inr None)))
    as (_ & _ & Hrun).
  destruct Hrun as (Hret & Hs & Hinv).
  - intros t Ht w kw. unfold happy_tasks in Ht.
    repeat (apply elem_of_cons in Ht as [->|Ht]); [..|by apply elem_of_nil in Ht];
      simpl; by eexists _, _.
  - split_and!; [exact Hret | exact Hs | exact Hinv | reflexivity |].
    by exists l.
Defined.

End GraphFlowTests.

(** * Further properties of the memory backends *)

(** ** Flow details *)

Section FlowDetailProperties.
Import MemoryFlowDetail.

Lemma existsb_filter_nil (ts : list TaskDetail) (n : string) :
  existsb (λ t, bool_decide (td_name t = n)) ts = true ↔
  filter (λ t, td_name t = n) ts ≠ [].
Proof.
  induction ts as [|t ts IH]; simpl; [done|].
  rewrite filter_cons. rewrite orb_true_iff, IH.
  case_decide as Ht.
  - rewrite bool_decide_eq_true. split; [done | by left].
  - rewrite bool_decide_eq_true. split; [by intros [?|?] | by right].
Qed.

(** X1: names of task details need not be unique: [add_task] appends whatever is
    there already, and returns the detail it appended; a lookup of the name
    then returns what it returned before followed by the new detail, lookups
    of other names are as before, and the length is one more. *)
Theorem flow_detail_add_task (d : t) (n : string) (md : option string) :
  let new := mkTaskDetail n md in
  let out := add_task n md d in
  out.2 = inr new ∧
  _tasks out.1 = _tasks d ++ [new] ∧
  book out.1 = book d ∧ name out.1 = name d ∧
  (∃ before, __getitem__ n d = (d, inr before) ∧
             __getitem__ n out.1 = (out.1, inr (before ++ [new]))) ∧
  (∀ m, m ≠ n → (__getitem__ m out.1).2 = (__getitem__ m d).2) ∧
  __contains__ n out.1 = (out.1, inr true) ∧
  (∃ len, __len__ d = (d, inr len) ∧ __len__ out.1 = (out.1, inr (S len))).
Proof.
  intros new out. subst out. unfold add_task, __getitem__, __contains__,
    __len__, __iter__. run_M. split_and!; try done.
  - eexists. split; [done|]. by rewrite filter_app, filter_cons,
      decide_True, filter_nil by done.
  - intros m Hm. rewrite filter_app, filter_cons, decide_False, filter_nil
      by (simpl; congruence). by rewrite app_nil_r.
  - do 2 f_equal. apply existsb_filter_nil.
    rewrite filter_app, filter_cons, decide_True by done.
    by destruct (filter _ (_tasks d)).
  - eexists. split; [done|]. rewrite length_app. simpl.
    do 2 f_equal. lia.
Qed.

(** X2: a lookup by name returns, in insertion order, exactly the task details
    with that name, and the membership test holds exactly when the lookup
    returns some; neither changes the flow detail nor raises, also for a
    name that was never added. *)
Theorem flow_detail_lookup (d : t) (n : string) :
  ∃ found,
    __getitem__ n d = (d, inr found) ∧
    found `sublist_of` _tasks d ∧
    (∀ td, td ∈ found ↔ td ∈ _tasks d ∧ td_name td = n) ∧
    __contains__ n d = (d, inr (bool_decide (found ≠ []))) ∧
    ((∀ td, td ∈ _tasks d → td_name td ≠ n) → found = []).
Proof.
  exists (filter (λ t, td_name t = n) (_tasks d)).
  unfold __getitem__, __contains__, __iter__. run_M. split_and!.
  - done.
  - apply sublist_filter.
  - intros td. rewrite list_elem_of_filter. tauto.
  - do 2 f_equal.
    destruct (existsb _ _) eqn:Hex.
    + symmetry. apply bool_decide_eq_true. by apply existsb_filter_nil.
    + symmetry. apply bool_decide_eq_false. intros Hne.
      apply existsb_filter_nil in Hne. congruence.
  - intros Hnone. induction (_tasks d) as [|t ts IH]; [done|].
    rewrite filter_cons, decide_False by (apply Hnone; by left).
    apply IH. intros td Htd. apply Hnone. by right.
Qed.

(** X3: removing a name from a flow detail never raises: it drops every task
    detail with that name, keeps the others in order, and leaves a flow
    detail that has no task detail of that name as it was.  The length goes
    down by the number of details the lookup returned. *)
Theorem flow_detail_delitem (d : t) (n : string) :
  let out := __delitem__ n d in
  out.2 = inr () ∧
  _tasks out.1 = filter (λ t, td_name t ≠ n) (_tasks d) ∧
  book out.1 = book d ∧ name out.1 = name d ∧
  __getitem__ n out.1 = (out.1, inr []) ∧
  __contains__ n out.1 = (out.1, inr false) ∧
  (∀ m, m ≠ n → (__getitem__ m out.1).2 = (__getitem__ m d).2) ∧
  (∃ found len, __getitem__ n d = (d, inr found) ∧ __len__ d = (d, inr len) ∧
     __len__ out.1 = (out.1, inr (len - length found)%nat)) ∧
  ((∀ td, td ∈ _tasks d → td_name td ≠ n) → out.1 = d).
Proof.
  intros out. subst out. unfold __delitem__, __getitem__, __contains__,
    __len__, __iter__. run_M.
  assert (filter (λ t, td_name t = n) (filter (λ t, td_name t ≠ n) (_tasks d))
          = []) as Hgone.
  { rewrite list_filter_filter. induction (_tasks d) as [|t ts IH]; [done|].
    rewrite filter_cons, decide_False by tauto. done. }
  split_and!; try done.
  - by rewrite Hgone.
  - do 2 f_equal. destruct (existsb _ _) eqn:Hex; [|done].
    apply existsb_filter_nil in Hex. congruence.
  - intros m Hm. f_equal. rewrite list_filter_filter.
    apply list_filter_iff. intros td. split; [tauto | intros; split; congruence].
  - eexists _, _. split_and!; [done | done |]. do 2 f_equal.
    pose proof (filter_app_complement (λ t, td_name t = n) (_tasks d)) as Hp.
    apply Permutation_length in Hp. rewrite length_app in Hp. lia.
  - intros Hnone. clear Hgone. destruct d as [b nm ts]. simpl in *. f_equal.
    induction ts as [|t ts IH]; [done|].
    rewrite filter_cons, decide_True by (apply Hnone; by left).
    f_equal. apply IH. intros td Htd. apply Hnone. by right.
Qed.

End FlowDetailProperties.

(** ** Log books *)

Section LogBookProperties.
Import MemoryLogBook.

Lemma contains_spec (st : St) (n : string) :
  _closed st.1 = false →
  __contains__ n st = (st, inr (bool_decide (n ∈ _flow_names st.1))).
Proof.
  intros Hopen. unfold __contains__. rewrite check_open by done. run_M.
  case_decide.
  - by rewrite bool_decide_eq_false_2.
  - rewrite bool_decide_eq_true_2; [done|].
    by destruct (decide (n ∈ _flow_names st.1)).
Qed.

Lemma size_names (details : Details) (flows : list ref)
    (names : gset string) :
  (∀ w, w ∈ flows → is_Some (details !! w)) →
  NoDup (name_of details <$> flows) →
  (∀ n, n ∈ names ↔ Some n ∈ name_of details <$> flows) →
  size names = length flows.
Proof.
  revert names. induction flows as [|w rest IH]; intros names Hlive Hnd Hn.
  - apply size_empty_iff, elem_of_equiv_empty. intros n Hin.
    apply Hn in Hin. by apply elem_of_nil in Hin.
  - destruct (Hlive w ltac:(by left)) as [d Hd].
    assert (name_of details w = Some (MemoryFlowDetail.name d)) as Hw
      by (unfold name_of; by rewrite Hd).
    set (n0 := MemoryFlowDetail.name d) in *.
    rewrite fmap_cons, Hw in Hnd, Hn.
    apply NoDup_cons in Hnd as [Hfirst Hnd].
    assert (names = {[n0]} ∪ names ∖ {[n0]}) as ->.
    { apply union_difference_L, singleton_subseteq_l, Hn. by left. }
    rewrite size_union
      by (intros x Hx1 Hx2; by apply elem_of_difference in Hx2 as [_ ?]).
    rewrite size_singleton.
    rewrite (IH (names ∖ {[n0]})); [done | | done |].
    + intros v Hv. apply Hlive. by right.
    + intros n. rewrite elem_of_difference, elem_of_singleton, Hn,
        elem_of_cons. split.
      * intros [[?|?] Hne]; [congruence | done].
      * intros Hin. split; [by right|]. intros ->. done.
Qed.

(** X4: on an open book built through the methods, a name is either held or not.
    If it is, the membership test says so, the lookup returns a flow detail
    of the book with that name (never [None]), and the removal returns;
    if it is not, the membership test says so and lookup and removal raise
    [NotFound].  The removal raises neither [KeyError] nor [ValueError]. *)
Theorem logbook_lookup_outcomes (details : Details) (calls : list call)
    (n : string) :
  let st := perform_all (__init__, details) calls in
  _closed st.1 = false →
  (__contains__ n st = (st, inr true) ∧
   (∃ w, __getitem__ n st = (st, inr (Some w)) ∧
         w ∈ _flows st.1 ∧ name_of st.2 w = Some n) ∧
   (∃ st', __delitem__ n st = (st', inr ()))) ∨
  (__contains__ n st = (st, inr false) ∧
   __getitem__ n st = (st, inl (Exn NotFound "")) ∧
   __delitem__ n st = (st, inl (Exn NotFound ""))).
Proof.
  intros st Hopen.
  assert (book_inv st) as Hinv by apply reachable_inv.
  destruct (has_flow_dec st n Hinv) as [Hhas|Hno].
  - left. pose proof Hhas as (w & Hw & Hn).
    apply has_flow_names in Hhas; [|done]. split_and!.
    + rewrite contains_spec by done. by rewrite bool_decide_eq_true_2.
    + exists w. split_and!; [by apply getitem_known | done | done].
    + destruct (delitem_known st n w Hinv Hopen Hw Hn)
        as (l1 & l2 & _ & Hdel & _). by eexists.
  - right. split_and!.
    + rewrite contains_spec by done. rewrite bool_decide_eq_false_2; [done|].
      by rewrite <- has_flow_names.
    + by apply getitem_unknown.
    + by apply delitem_unknown.
Qed.

Lemma logbook_lookup_outcomes_witness :
  __contains__ "boot" book_example = (book_example, inr true) ∧
  __contains__ "halt" book_example = (book_example, inr false).
Proof.
  split.
  - destruct (logbook_lookup_outcomes ∅ [AddFlow 0%nat "boot"] "boot" eq_refl)
      as [(H & _)|(H & _)]; [exact H | discriminate H].
  - destruct (logbook_lookup_outcomes ∅ [AddFlow 0%nat "boot"] "halt" eq_refl)
      as [(H & _)|(H & _)]; [discriminate H | exact H].
Defined.

(** X5: the length of a book built through the methods is the number of names it
    holds: it lists no flow detail twice, and no two of its flow details
    share a name.  This holds for a closed book as well. *)
Theorem logbook_len_counts_names (details : Details) (calls : list call) :
  let st := perform_all (__init__, details) calls in
  __len__ st = (st, inr (size (_flow_names st.1))) ∧
  NoDup (_flows st.1) ∧
  (∀ w1 w2, w1 ∈ _flows st.1 → w2 ∈ _flows st.1 →
     name_of st.2 w1 = name_of st.2 w2 → w1 = w2).
Proof.
  intros st. destruct (reachable_inv details calls) as (Hlive & Hnd & Hn).
  fold st in Hlive, Hnd, Hn. split_and!.
  - unfold __len__. run_M. do 2 f_equal. symmetry.
    by apply (size_names st.2).
  - by apply NoDup_fmap_1 in Hnd.
  - intros w1 w2 [i Hi]%list_elem_of_lookup_1 [j Hj]%list_elem_of_lookup_1 Heq.
    assert (i = j) as ->; [|congruence].
    apply (NoDup_lookup _ i j (name_of st.2 w1) Hnd);
      rewrite list_lookup_fmap; [by rewrite Hi | by rewrite Hj, Heq].
Qed.

Lemma logbook_len_counts_names_witness :
  __len__ closed_book = (closed_book, inr 1%nat).
Proof.
  pose proof (logbook_len_counts_names ∅ [AddFlow 0%nat "boot"; Close])
    as (Hlen & _). exact Hlen.
Defined.

(** X6: removing a held name from an open book built through the methods takes
    exactly its flow detail out of the book: the membership test then
    fails, looking the name up raises [NotFound], the other names are
    looked up as before, and the length is one less.  The flow detail
    itself is not destroyed, and adding the name again succeeds with
    another flow detail than the one removed. *)
Theorem logbook_remove_then_add (details : Details) (calls : list call)
    (n : string) (w : ref) (self : ref) :
  let st := perform_all (__init__, details) calls in
  _closed st.1 = false → w ∈ _flows st.1 → name_of st.2 w = Some n →
  let out := __delitem__ n st in
  out.2 = inr () ∧
  (w ∉ _flows out.1.1) ∧
  (∀ v, v ≠ w → (v ∈ _flows out.1.1 ↔ v ∈ _flows st.1)) ∧
  S (length (_flows out.1.1)) = length (_flows st.1) ∧
  out.1.2 = st.2 ∧
  __contains__ n out.1 = (out.1, inr false) ∧
  __getitem__ n out.1 = (out.1, inl (Exn NotFound "")) ∧
  (∀ m v, m ≠ n → __getitem__ m st = (st, inr v) →
     __getitem__ m out.1 = (out.1, inr v)) ∧
  (∃ f, (add_flow self n out.1).2 = inr f ∧ f ≠ w).
Proof.
  intros st Hopen Hw Hn out.
  assert (book_inv st) as Hinv by apply reachable_inv.
  destruct (delitem_known st n w Hinv Hopen Hw Hn)
    as (l1 & l2 & Hfl & Hdel & Hinv').
  cbv zeta in Hdel, Hinv'. subst out. rewrite Hdel.
  set (st' := (mk (l1 ++ l2) (_flow_names st.1 ∖ {[n]}) false, st.2)) in *.
  assert (_closed st'.1 = false) as Hopen' by done.
  assert (NoDup (_flows st.1)) as Hnd
    by (destruct Hinv as (_ & Hnd & _); by apply NoDup_fmap_1 in Hnd).
  rewrite Hfl in Hnd. apply NoDup_app in Hnd as (_ & Hcross & [Hwl2 _]%NoDup_cons).
  assert (w ∉ l1 ++ l2) as Hgone.
  { intros [Hin|Hin]%elem_of_app; [|done]. apply (Hcross w Hin). by left. }
  assert (¬ has_flow st' n) as Hno.
  { rewrite has_flow_names by done. unfold st'. cbn [fst _flow_names].
    rewrite elem_of_difference, elem_of_singleton. tauto. }
  cbn [fst snd]. split_and!; try done.
  - intros v Hv. unfold st'. cbn [fst _flows].
    rewrite Hfl, !elem_of_app, elem_of_cons. tauto.
  - unfold st'. cbn [fst _flows]. rewrite Hfl, !length_app. simpl. lia.
  - rewrite contains_spec by done. rewrite bool_decide_eq_false_2; [done|].
    by rewrite <- has_flow_names.
  - by apply getitem_unknown.
  - intros m v Hm Hget. destruct v as [v|].
    + destruct (has_flow_dec st m Hinv) as [(v' & Hv' & Hm')|Hnom];
        [|rewrite getitem_unknown in Hget by done; discriminate Hget].
      rewrite (getitem_known st m v') in Hget by done.
      injection Hget as <-. apply getitem_known; try done.
      rewrite Hfl in Hv'. unfold st'. cbn [fst _flows].
      rewrite elem_of_app, elem_of_cons in Hv'. rewrite elem_of_app.
      destruct Hv' as [?|[->|?]]; auto. congruence.
    + destruct (has_flow_dec st m Hinv) as [(v' & Hv' & Hm')|Hnom].
      * rewrite (getitem_known st m v') in Hget by done. discriminate Hget.
      * rewrite getitem_unknown in Hget by done. discriminate Hget.
  - destruct (add_flow_new self st' n Hinv' Hopen' Hno) as [-> _].
    eexists. split; [done|]. intros Heq.
    destruct Hinv as (Hlive & _). apply Hlive in Hw as [d Hd].
    cbn [snd] in Heq. rewrite <- Heq in Hd.
    by rewrite fresh_ref_unused in Hd.
Qed.

Lemma logbook_remove_then_add_witness :
  let out := __delitem__ "boot" book_example in
  out.2 = inr () ∧ _flows out.1.1 = [] ∧
  (add_flow 0%nat "boot" out.1).2 = inr 1%nat.
Proof.
  destruct (logbook_remove_then_add ∅ [AddFlow 0%nat "boot"] "boot" 0%nat
              0%nat eq_refl ltac:(by_compute) eq_refl) as (Hret & _).
  split_and!; [exact Hret | reflexivity | reflexivity].
Defined.

(** X7: adding a name the book does not hold and removing it again leaves the
    book with the flows and names it had; only the flow detail that was
    made stays behind in the store. *)
Theorem logbook_add_then_remove (details : Details) (calls : list call)
    (n : string) (self : ref) :
  let st := perform_all (__init__, details) calls in
  _closed st.1 = false → ¬ has_flow st n →
  ∃ f, (add_flow self n st).2 = inr f ∧
       __delitem__ n (add_flow self n st).1
         = ((st.1, <[f := MemoryFlowDetail.mk self n []]> st.2), inr ()) ∧
       st.2 !! f = None.
Proof.
  intros st Hopen Hno.
  assert (book_inv st) as Hinv by apply reachable_inv.
  destruct (add_flow_new self st n Hinv Hopen Hno) as [Hadd Hinv'].
  cbv zeta in Hadd, Hinv'. rewrite Hadd. cbn [fst snd].
  set (f := fresh (dom st.2)) in *. exists f.
  split_and!; [done | | apply fresh_ref_unused].
  set (st1 := (mk (_flows st.1 ++ [f]) ({[n]} ∪ _flow_names st.1) false,
               <[f := MemoryFlowDetail.mk self n []]> st.2)) in *.
  assert (f ∈ _flows st1.1) as Hf
    by (unfold st1; cbn [fst _flows]; apply elem_of_app; right;
        by apply list_elem_of_singleton).
  assert (name_of st1.2 f = Some n) as Hfn
    by (unfold name_of, st1; cbn [snd]; by rewrite lookup_insert_eq).
  destruct (delitem_known st1 n f Hinv' eq_refl Hf Hfn)
    as (l1 & l2 & Hfl & Hdel & _).
  cbv zeta in Hdel. rewrite Hdel. unfold st1 in *. cbn [fst snd] in *.
  f_equal. f_equal.
  assert (f ∉ _flows st.1) as Hfresh.
  { intros Hin. destruct Hinv as (Hlive & _). apply Hlive in Hin as [d Hd].
    unfold f in Hd. by rewrite fresh_ref_unused in Hd. }
  assert (NoDup (_flows st.1 ++ [f])) as Hnd
    by (destruct Hinv' as (_ & Hnd & _); by apply NoDup_fmap_1 in Hnd).
  assert (l2 = [] ∧ l1 = _flows st.1) as [-> ->].
  { cbn [fst _flows] in Hfl, Hnd. rewrite Hfl in Hnd.
    apply NoDup_app in Hnd as (_ & _ & [Hfl2 _]%NoDup_cons).
    destruct l2 as [|x l2' _] using rev_ind.
    - apply app_inj_tail in Hfl as [-> _]. done.
    - rewrite app_comm_cons, app_assoc in Hfl.
      apply app_inj_tail in Hfl as [_ ->].
      exfalso. apply Hfl2, elem_of_app. right. by apply list_elem_of_singleton. }
  rewrite app_nil_r. cbn [_flow_names].
  assert (({[n]} ∪ _flow_names st.1) ∖ {[n]} = _flow_names st.1) as ->.
  { rewrite has_flow_names in Hno by done. cbn [fst _flow_names].
    apply set_eq. intros x.
    rewrite elem_of_difference, elem_of_union, elem_of_singleton.
    split; [tauto|]. intros Hx. split; [by right | congruence]. }
  destruct st as [[fl nm cl] dd]. simpl in *. by subst.
Qed.

Lemma logbook_add_then_remove_witness :
  (__delitem__ "halt" (add_flow 0%nat "halt" book_example).1).1.1
    = book_example.1.
Proof.
  destruct (logbook_add_then_remove ∅ [AddFlow 0%nat "boot"] "halt" 0%nat
              eq_refl) as (f & _ & Hdel & _).
  - rewrite has_flow_names by apply reachable_inv. by_compute.
  - unfold book_example. by rewrite Hdel.
Defined.

(** X8: a closed book is frozen: whatever methods are called on it and on its
    flow details, it stays closed and keeps its flows and names. *)
Theorem logbook_closed_is_frozen (st : St) (calls : list call) :
  _closed st.1 = true → (perform_all st calls).1 = st.1.
Proof.
  unfold perform_all. revert st.
  induction calls as [|c calls IH]; intros st Hc; [done|]. simpl.
  assert ((perform st c).1 = st.1) as Hstep.
  { destruct c; simpl; try done.
    - unfold add_flow. by rewrite check_closed.
    - by rewrite getitem_state.
    - by rewrite iter_state.
    - destruct st as [[fl nm cl] dd]. simpl in *. by subst.
    - by rewrite contains_state.
    - unfold __delitem__, __getitem__.
      unfold mbind at 1, M_bind at 1, bind at 1. by rewrite check_closed. }
  rewrite IH by (by rewrite Hstep). done.
Qed.

Lemma logbook_closed_is_frozen_witness :
  (perform_all closed_book [AddFlow 0%nat "halt"; DelItem "boot"]).1
    = closed_book.1.
Proof. apply (logbook_closed_is_frozen closed_book); reflexivity. Defined.

End LogBookProperties.

(** ** Catalogs *)

Section CatalogProperties.
Import MemoryCatalog.

Lemma fresh_unused {A} (h : gmap ref A) : h !! fresh (dom h) = None.
Proof. apply not_elem_of_dom, is_fresh. Qed.

Lemma book_of_None (catalogs : list (ref * ref)) (job : ref) :
  book_of catalogs job = None ↔ job ∉ catalogs.*1.
Proof.
  induction catalogs as [|[j b] rest IH]; simpl.
  - split; [intros _; apply not_elem_of_nil | done].
  - rewrite not_elem_of_cons. case_decide as Hj; subst.
    + split; [done | by intros [? _]].
    + rewrite IH. split; [by intros ? | by intros [_ ?]].
Qed.

Lemma book_of_Some (catalogs : list (ref * ref)) (job b : ref) :
  book_of catalogs job = Some b → (job, b) ∈ catalogs.
Proof.
  induction catalogs as [|[j b'] rest IH]; simpl; [done|].
  case_decide as Hj; subst.
  - intros [= ->]. by left.
  - intros Hb. right. by apply IH.
Qed.

Lemma book_of_snoc (catalogs : list (ref * ref)) (job b : ref) :
  book_of catalogs job = None → book_of (catalogs ++ [(job, b)]) job = Some b.
Proof.
  induction catalogs as [|[j b'] rest IH]; simpl.
  - by rewrite decide_True.
  - case_decide; [done | apply IH].
Qed.

Lemma book_of_snoc_ne (catalogs : list (ref * ref)) (job job' b : ref) :
  job' ≠ job →
  book_of (catalogs ++ [(job, b)]) job' = book_of catalogs job'.
Proof.
  intros Hne. induction catalogs as [|[j b'] rest IH]; simpl.
  - by rewrite decide_False by congruence.
  - by case_decide.
Qed.

Lemma book_of_filter_ne (catalogs : list (ref * ref)) (job job' : ref) :
  job' ≠ job →
  book_of (filter (λ jb, jb.1 ≠ job) catalogs) job' = book_of catalogs job'.
Proof.
  intros Hne. induction catalogs as [|[j b'] rest IH]; simpl; [done|].
  rewrite filter_cons. simpl. destruct (decide (j ≠ job)) as [Hj|Hj]; simpl.
  - by case_decide.
  - rewrite decide_False by (intros ->; apply Hj; by apply dec_stable).
    done.
Qed.

Lemma create_or_fetch_spec (st : St) (job : ref) :
  _closed st.1 = false →
  create_or_fetch job st =
    match book_of (_catalogs st.1) job with
    | Some b => (st, inr b)
    | None =>
        let b := fresh (dom st.2) in
        ((mk (_catalogs st.1 ++ [(job, b)]) false,
          <[b := MemoryLogBook.__init__]> st.2), inr b)
    end.
Proof.
  intros Hopen. unfold create_or_fetch. rewrite check_open by done. run_M.
  destruct (book_of _ job); [done|]. simpl. by rewrite Hopen.
Qed.

(** X9: on an open catalog, [create_or_fetch] fetches when the job has an entry
    and changes nothing then; otherwise it makes a log book that did not
    exist, empty and open, enters it last under the job, and leaves the
    other entries and books alone.  Either way the job is then in the
    catalog, and asking again returns the same book and changes nothing. *)
Theorem catalog_create_or_fetch (st : St) (job : ref) :
  _closed st.1 = false →
  let out := create_or_fetch job st in
  ∃ b,
    out.2 = inr b ∧
    create_or_fetch job out.1 = (out.1, inr b) ∧
    __contains__ job out.1 = (out.1, inr true) ∧
    (job ∈ (_catalogs st.1).*1 → out.1 = st ∧ (job, b) ∈ _catalogs st.1) ∧
    (job ∉ (_catalogs st.1).*1 →
       st.2 !! b = None ∧
       out.1.2 !! b = Some MemoryLogBook.__init__ ∧
       (∀ b', b' ≠ b → out.1.2 !! b' = st.2 !! b') ∧
       _catalogs out.1.1 = _catalogs st.1 ++ [(job, b)] ∧
       __len__ out.1 = (out.1, inr (S (length (_catalogs st.1))))).
Proof.
  intros Hopen out. subst out. rewrite create_or_fetch_spec by done.
  destruct (book_of (_catalogs st.1) job) as [b|] eqn:Hb.
  - exists b. cbn [fst snd]. split_and!.
    + done.
    + rewrite create_or_fetch_spec by done. by rewrite Hb.
    + unfold __contains__. run_M. do 2 f_equal. apply has_job_elem_of.
      apply book_of_Some in Hb. apply list_elem_of_fmap. by exists (job, b).
    + intros _. split; [done | by apply book_of_Some].
    + intros Hno. apply book_of_None in Hno. congruence.
  - exists (fresh (dom st.2)). cbn zeta. cbn [fst snd].
    set (b := fresh (dom st.2)). split_and!.
    + done.
    + rewrite create_or_fetch_spec by done. cbn [fst _catalogs].
      by rewrite book_of_snoc.
    + unfold __contains__. run_M. do 2 f_equal. apply has_job_elem_of.
      rewrite fmap_app, elem_of_app. right. by left.
    + intros Hin. by apply book_of_None in Hb.
    + intros _. split_and!.
      * apply fresh_unused.
      * by rewrite lookup_insert_eq.
      * intros b' Hb'. by rewrite lookup_insert_ne.
      * done.
      * unfold __len__. run_M. rewrite length_app. simpl.
        do 2 f_equal. lia.
Qed.

Lemma catalog_create_or_fetch_witness :
  create_or_fetch 1%nat (catalog_example, ∅)
    = ((catalog_example, ∅), inr 7%nat) ∧
  (create_or_fetch 3%nat (catalog_example, ∅)).2 = inr 0%nat.
Proof.
  split.
  - destruct (catalog_create_or_fetch (catalog_example, ∅) 1%nat eq_refl)
      as (b & Hret & _ & _ & Hin & _).
    destruct Hin as [Hsame Hb]; [by_compute|].
    assert (b = 7%nat) as ->.
    { revert Hb. unfold catalog_example. cbn [fst _catalogs].
      rewrite !elem_of_cons. intros [[= <-]|[[=]|?%elem_of_nil]]; done. }
    destruct (create_or_fetch 1%nat (catalog_example, ∅)) as [s r].
    simpl in *. by subst.
  - destruct (catalog_create_or_fetch (catalog_example, ∅) 3%nat eq_refl)
      as (b & Hret & _). reflexivity.
Defined.

(** X10: erasing a job right after [create_or_fetch] entered it gives back the
    entries the catalog had; the log book that was made is not destroyed. *)
Theorem catalog_create_then_erase (st : St) (job : ref) :
  _closed st.1 = false → job ∉ (_catalogs st.1).*1 →
  ∃ b, (create_or_fetch job st).2 = inr b ∧
       erase job (create_or_fetch job st).1
         = ((st.1, <[b := MemoryLogBook.__init__]> st.2), inr ()).
Proof.
  intros Hopen Hno. rewrite create_or_fetch_spec by done.
  rewrite (proj2 (book_of_None _ _) Hno). cbn zeta. eexists. split; [done|].
  cbn [fst snd]. unfold erase. rewrite check_open by done. run_M.
  rewrite filter_app, filter_absent by done.
  rewrite filter_cons, decide_False, filter_nil by (simpl; tauto).
  rewrite app_nil_r. destruct st as [[cat cl] books]. simpl in *. by subst.
Qed.

Lemma catalog_create_then_erase_witness :
  (erase 3%nat (create_or_fetch 3%nat (catalog_example, ∅)).1).1.1
    = catalog_example.
Proof.
  destruct (catalog_create_then_erase (catalog_example, ∅) 3%nat eq_refl)
    as (b & _ & ->); [by_compute | reflexivity].
Defined.

Lemma erase_spec (st : St) (job : ref) :
  _closed st.1 = false →
  erase job st =
    ((mk (filter (λ jb, jb.1 ≠ job) (_catalogs st.1)) false, st.2), inr ()).
Proof.
  intros Hopen. unfold erase. rewrite check_open by done. run_M.
  by rewrite Hopen.
Qed.

Lemma catalog_closed_or_open (st : St) :
  _closed st.1 = true ∨ _closed st.1 = false.
Proof. destruct (_closed st.1); auto. Qed.

Lemma catalog_perform_inv (st : St) (c : catalog_call) :
  catalog_inv st → catalog_inv (catalog_perform st c).
Proof.
  intros (Hjobs & Hbooks & Hlive).
  destruct c as [|job| |job|job|b change]; simpl; try done.
  - destruct (catalog_closed_or_open st) as [Hc|Ho].
    { unfold create_or_fetch. by rewrite check_closed. }
    rewrite create_or_fetch_spec by done.
    destruct (book_of (_catalogs st.1) job) as [b|] eqn:Hb; [done|].
    cbn zeta. unfold catalog_inv. cbn [fst snd _catalogs].
    set (b := fresh (dom st.2)).
    assert (b ∉ (_catalogs st.1).*2) as Hfresh.
    { intros [d Hd]%Hlive. unfold b in Hd. by rewrite fresh_unused in Hd. }
    rewrite !fmap_app. simpl. split_and!.
    + apply NoDup_app. split_and!; [done | | apply NoDup_singleton].
      intros j Hj ->%list_elem_of_singleton. by apply book_of_None in Hb.
    + apply NoDup_app. split_and!; [done | | apply NoDup_singleton].
      by intros x Hx ->%list_elem_of_singleton.
    + intros x [Hx| ->%list_elem_of_singleton]%elem_of_app.
      * rewrite lookup_insert_ne by (intros <-; done). by apply Hlive.
      * rewrite lookup_insert_eq. by eexists.
  - destruct (catalog_closed_or_open st) as [Hc|Ho].
    { unfold erase. by rewrite check_closed. }
    rewrite erase_spec by done. unfold catalog_inv. cbn [fst snd _catalogs].
    assert (filter (λ jb, jb.1 ≠ job) (_catalogs st.1)
              `sublist_of` _catalogs st.1) as Hsub by apply sublist_filter.
    split_and!.
    + eapply sublist_NoDup; [exact Hjobs | by apply fmap_sublist].
    + eapply sublist_NoDup; [exact Hbooks | by apply fmap_sublist].
    + intros b Hb. apply Hlive. eapply elem_of_sublist; [exact Hb|].
      by apply fmap_sublist.
  - unfold catalog_inv. cbn [fst snd]. split_and!; [done | done |].
    intros x Hx. apply Hlive in Hx. destruct (decide (b = x)) as [->|Hne].
    + rewrite lookup_alter_eq. by apply fmap_is_Some.
    + by rewrite lookup_alter_ne.
Qed.

Lemma catalog_reachable_inv (books : Books) (calls : list catalog_call) :
  catalog_inv (catalog_perform_all (__init__, books) calls).
Proof.
  unfold catalog_perform_all.
  assert (catalog_inv (__init__, books)) as Hinit.
  { unfold catalog_inv. simpl. split_and!; [apply NoDup_nil_2..|].
    by intros b ?%elem_of_nil. }
  revert Hinit. generalize (__init__, books).
  induction calls as [|c calls IH]; simpl; [done|].
  intros st Hinv. by apply IH, catalog_perform_inv.
Qed.

(** X11: in a catalog built through the methods a job has one log book and a log
    book one job, every log book of the catalog is alive, and the length is
    the number of jobs the catalog holds. *)
Theorem catalog_one_book_per_job (books : Books) (calls : list catalog_call) :
  let st := catalog_perform_all (__init__, books) calls in
  (∀ job b1 b2, (job, b1) ∈ _catalogs st.1 → (job, b2) ∈ _catalogs st.1 →
     b1 = b2) ∧
  (∀ j1 j2 b, (j1, b) ∈ _catalogs st.1 → (j2, b) ∈ _catalogs st.1 →
     j1 = j2) ∧
  (∀ job b, (job, b) ∈ _catalogs st.1 → is_Some (st.2 !! b)) ∧
  __len__ st
    = (st, inr (size (list_to_set (C := gset ref) (_catalogs st.1).*1))).
Proof.
  intros st. destruct (catalog_reachable_inv books calls)
    as (Hjobs & Hbooks & Hlive). fold st in Hjobs, Hbooks, Hlive.
  split_and!.
  - intros job b1 b2 [i Hi]%list_elem_of_lookup_1 [k Hk]%list_elem_of_lookup_1.
    assert (i = k) as ->; [|congruence].
    apply (NoDup_lookup _ i k job Hjobs);
      rewrite list_lookup_fmap; [by rewrite Hi | by rewrite Hk].
  - intros j1 j2 b [i Hi]%list_elem_of_lookup_1 [k Hk]%list_elem_of_lookup_1.
    assert (i = k) as ->; [|congruence].
    apply (NoDup_lookup _ i k b Hbooks);
      rewrite list_lookup_fmap; [by rewrite Hi | by rewrite Hk].
  - intros job b Hin. apply Hlive, list_elem_of_fmap. by exists (job, b).
  - unfold __len__. run_M. do 2 f_equal.
    rewrite size_list_to_set by done. by rewrite length_fmap.
Qed.

Lemma catalog_one_book_per_job_witness :
  let st := catalog_perform_all (__init__, ∅)
              [CatCreateOrFetch 1%nat; CatCreateOrFetch 2%nat;
               CatCreateOrFetch 1%nat] in
  __len__ st = (st, inr 2%nat).
Proof.
  intros st.
  destruct (catalog_one_book_per_job ∅
              [CatCreateOrFetch 1%nat; CatCreateOrFetch 2%nat;
               CatCreateOrFetch 1%nat]) as (_ & _ & _ & Hlen).
  fold st in Hlen. rewrite Hlen. reflexivity.
Defined.

(** X12: history is not resurrected: after a job of a catalog built through the
    methods is erased, [create_or_fetch] for it returns another log book
    than the one it had; the old log book is still alive and unchanged. *)
Theorem catalog_erase_then_create (books : Books)
    (calls : list catalog_call) (job b : ref) :
  let st := catalog_perform_all (__init__, books) calls in
  _closed st.1 = false → (job, b) ∈ _catalogs st.1 →
  let out := create_or_fetch job (erase job st).1 in
  ∃ b', out.2 = inr b' ∧ b' ≠ b ∧
        is_Some (st.2 !! b) ∧ out.1.2 !! b = st.2 !! b ∧
        out.1.2 !! b' = Some MemoryLogBook.__init__ ∧
        (job, b') ∈ _catalogs out.1.1 ∧ ((job, b) ∉ _catalogs out.1.1).
Proof.
  intros st Hopen Hin out. subst out.
  destruct (catalog_reachable_inv books calls) as (_ & _ & Hlive).
  fold st in Hlive.
  assert (is_Some (st.2 !! b)) as Hb
    by (apply Hlive, list_elem_of_fmap; by exists (job, b)).
  rewrite erase_spec by done. cbn [fst].
  rewrite create_or_fetch_spec by done. cbn [fst snd _catalogs].
  assert (book_of (filter (λ jb, jb.1 ≠ job) (_catalogs st.1)) job = None)
    as ->.
  { apply book_of_None. rewrite list_elem_of_fmap.
    by intros ([j x] & -> & [? _]%list_elem_of_filter). }
  cbn zeta. cbn [fst snd _catalogs]. set (b' := fresh (dom st.2)).
  assert (b' ≠ b) as Hne.
  { intros <-. destruct Hb as [d Hd]. unfold b' in Hd.
    by rewrite fresh_unused in Hd. }
  exists b'. split_and!; try done.
  - by rewrite lookup_insert_ne.
  - by rewrite lookup_insert_eq.
  - apply elem_of_app. right. by left.
  - intros [[Hne' _]%list_elem_of_filter|Hlast]%elem_of_app; [done|].
    apply list_elem_of_singleton in Hlast. congruence.
Qed.

Lemma catalog_erase_then_create_witness :
  let st := catalog_perform_all (__init__, ∅) [CatCreateOrFetch 1%nat] in
  (create_or_fetch 1%nat st).2 = inr 0%nat ∧
  (create_or_fetch 1%nat (erase 1%nat st).1).2 = inr 1%nat.
Proof.
  intros st.
  destruct (catalog_erase_then_create ∅ [CatCreateOrFetch 1%nat] 1%nat 0%nat
              eq_refl ltac:(by_compute)) as (b' & Hret & _).
  split; reflexivity.
Defined.

(** X13: what the catalog does for one job does not change what it returns for
    another: erasing a job leaves [create_or_fetch] of every other job as it
    was, and so does entering a job, for the other jobs that have a log
    book. *)
Theorem catalog_jobs_independent (st : St) (job job' : ref) :
  _closed st.1 = false → job' ≠ job →
  (create_or_fetch job' (erase job st).1).2 = (create_or_fetch job' st).2 ∧
  (job' ∈ (_catalogs st.1).*1 →
   (create_or_fetch job' (create_or_fetch job st).1).2
     = (create_or_fetch job' st).2) ∧
  (__contains__ job' (erase job st).1).2 = (__contains__ job' st).2 ∧
  (__contains__ job' (create_or_fetch job st).1).2
    = (__contains__ job' st).2.
Proof.
  intros Hopen Hne.
  assert (∀ c, has_job c job' = bool_decide (is_Some (book_of c job')))
    as Hhas.
  { intros c. induction c as [|[j x] c IH]; simpl; [done|].
    by case_decide. }
  rewrite erase_spec by done.
  rewrite (create_or_fetch_spec st job) by done.
  rewrite (create_or_fetch_spec st job') by done.
  cbn [fst snd]. split_and!.
  - rewrite create_or_fetch_spec by done. cbn [fst snd _catalogs].
    rewrite book_of_filter_ne by done.
    by destruct (book_of (_catalogs st.1) job').
  - intros Hin. destruct (book_of (_catalogs st.1) job') as [b'|] eqn:Hb';
      [|by apply book_of_None in Hb'].
    destruct (book_of (_catalogs st.1) job) as [b|] eqn:Hb.
    + cbn [fst snd]. rewrite create_or_fetch_spec by done. by rewrite Hb'.
    + cbn zeta. cbn [fst snd]. rewrite create_or_fetch_spec by done.
      cbn [fst snd _catalogs]. rewrite book_of_snoc_ne by done.
      by rewrite Hb'.
  - unfold __contains__. run_M. f_equal. rewrite !Hhas.
    by rewrite book_of_filter_ne.
  - unfold __contains__. run_M. f_equal.
    destruct (book_of (_catalogs st.1) job) as [b|] eqn:Hb; [done|].
    cbn zeta. cbn [fst snd _catalogs]. rewrite !Hhas.
    by rewrite book_of_snoc_ne.
Qed.

Lemma catalog_jobs_independent_witness :
  (create_or_fetch 2%nat (erase 1%nat (catalog_example, ∅)).1).2 = inr 8%nat ∧
  (create_or_fetch 2%nat (create_or_fetch 3%nat (catalog_example, ∅)).1).2
    = inr 8%nat.
Proof.
  destruct (catalog_jobs_independent (catalog_example, ∅) 1%nat 2%nat
              eq_refl ltac:(done)) as (He & _).
  destruct (catalog_jobs_independent (catalog_example, ∅) 3%nat 2%nat
              eq_refl ltac:(done)) as (_ & Hc & _).
  split; [by rewrite He | rewrite Hc; [reflexivity | by_compute]].
Defined.

End CatalogProperties.

(** ** Job boards *)

Section JobBoardProperties.
Import MemoryJobBoard.

Lemma post_spec (self : ref) (utcnow : Z) (job : ref) (st : St) :
  _closed st.1 = false →
  post self utcnow job st =
    ((mk false (_board st.1 ++ [(utcnow, job)]) false
         (notices st.1 ++ [Posted job]),
      update_job st.2 job
        (λ j, mkJob (job_state j) (job_owner j) (posted_on j ++ [self]))),
     inr ()).
Proof.
  intros Hopen. unfold post. rewrite check_open by done. run_M.
  by rewrite Hopen.
Qed.

Lemma board_erase_spec (job : ref) (st : St) :
  _closed st.1 = false → job ∈ (_board st.1).*2 →
  job_state (st.2 job) = SUCCESS ∨ job_state (st.2 job) = FAILURE →
  erase job st =
    ((mk (_event st.1) (filter (λ dj, dj.2 ≠ job) (_board st.1)) false
         (notices st.1 ++ [Erased job]), st.2), inr ()).
Proof.
  intros Hopen Hin Hstate. unfold erase. rewrite check_open by done. run_M.
  apply on_board_elem_of in Hin. rewrite Hin. simpl.
  rewrite decide_False; [by rewrite Hopen|].
  intros Hn. apply Hn. rewrite !elem_of_cons. tauto.
Qed.

Lemma board_erase_state (job : ref) (st : St) :
  (erase job st).1 = st ∨
  (_closed st.1 = false ∧ job ∈ (_board st.1).*2 ∧
   (erase job st).1 =
     (mk (_event st.1) (filter (λ dj, dj.2 ≠ job) (_board st.1)) false
         (notices st.1 ++ [Erased job]), st.2)).
Proof.
  destruct (_closed st.1) eqn:Hc.
  { left. unfold erase. by rewrite check_closed. }
  destruct (decide (job ∈ (_board st.1).*2)) as [Hin|Hout].
  - destruct (decide (job_state (st.2 job) = SUCCESS
                      ∨ job_state (st.2 job) = FAILURE)) as [Hs|Hs].
    + right. by rewrite board_erase_spec.
    + left. unfold erase. rewrite check_open by done. run_M.
      apply on_board_elem_of in Hin. rewrite Hin. simpl.
      rewrite decide_True; [done|].
      rewrite !not_elem_of_cons. split_and!; try tauto.
      apply not_elem_of_nil.
  - left. destruct st as [b jobs]. by rewrite erase_absent.
Qed.

Lemma filter_other_jobs (board : list (Z * ref)) (job : ref) :
  job ∉ board.*2 → filter (λ dj, dj.2 ≠ job) board = board.
Proof.
  induction board as [|[d j] rest IH]; simpl; [done|].
  rewrite not_elem_of_cons. intros [Hne Hrest].
  rewrite filter_cons, decide_True by (simpl; congruence).
  by rewrite IH.
Qed.

Lemma filter_sublist_impl {A} (P Q : A → Prop) `{!∀ x, Decision (P x)}
    `{!∀ x, Decision (Q x)} (l : list A) :
  (∀ x, P x → Q x) → filter P l `sublist_of` filter Q l.
Proof.
  intros HPQ. induction l as [|x l IH]; [done|].
  rewrite !filter_cons. destruct (decide (P x)) as [HP|HP].
  - rewrite decide_True by auto. by apply sublist_skip.
  - destruct (decide (Q x)); [by apply sublist_cons | done].
Qed.

(** X14: on an open board, [post] enters the job last, with the time read from
    the clock, announces it, makes the job track the board and leaves the
    event clear; the job's state and owner and the other jobs are as
    before.  The job is then the last the board lists, it is among those
    posted at or after that time, and those posted before that time are the
    ones that were. *)
Theorem jobboard_post (self : ref) (utcnow : Z) (job : ref) (st : St) :
  _closed st.1 = false →
  let out := post self utcnow job st in
  out.2 = inr () ∧
  _board out.1.1 = _board st.1 ++ [(utcnow, job)] ∧
  notices out.1.1 = notices st.1 ++ [Posted job] ∧
  _event out.1.1 = false ∧ _closed out.1.1 = false ∧
  posted_on (out.1.2 job) = posted_on (st.2 job) ++ [self] ∧
  job_state (out.1.2 job) = job_state (st.2 job) ∧
  job_owner (out.1.2 job) = job_owner (st.2 job) ∧
  (∀ j, j ≠ job → out.1.2 j = st.2 j) ∧
  (∃ all, posted_after None st = (st, inr all) ∧
          posted_after None out.1 = (out.1, inr (all ++ [job]))) ∧
  (∃ late, posted_after (Some utcnow) st = (st, inr late) ∧
           posted_after (Some utcnow) out.1 = (out.1, inr (late ++ [job]))) ∧
  (posted_before (Some utcnow) out.1).2 = (posted_before (Some utcnow) st).2.
Proof.
  intros Hopen out. subst out. rewrite post_spec by done. cbn [fst snd].
  unfold update_job. split_and!; try done.
  - by rewrite decide_True.
  - by rewrite decide_True.
  - by rewrite decide_True.
  - intros j Hj. by rewrite decide_False.
  - unfold posted_after. rewrite !check_open by done. run_M.
    eexists. split; [done|]. rewrite !select_posts_all, fmap_app. done.
  - unfold posted_after. rewrite !check_open by done. run_M.
    eexists. split; [done|]. rewrite !select_posts_filter.
    rewrite filter_app, filter_cons, decide_True, filter_nil
      by (simpl; apply bool_decide_eq_true; lia).
    by rewrite fmap_app.
  - unfold posted_before. rewrite !check_open by done. run_M.
    rewrite !select_posts_filter.
    rewrite filter_app, filter_cons, decide_False, filter_nil
      by (simpl; rewrite bool_decide_eq_true; lia).
    by rewrite app_nil_r.
Qed.

Lemma jobboard_post_witness :
  let out := post 0%nat 30 3%nat (board_example, jobs_example) in
  _closed board_example = false ∧
  _board out.1.1 = [(10, 1%nat); (20, 2%nat); (30, 3%nat)] ∧
  posted_on (out.1.2 3%nat) = [0%nat].
Proof.
  destruct (jobboard_post 0%nat 30 3%nat (board_example, jobs_example)
              eq_refl) as (_ & Hb & _ & _ & _ & Hp & _).
  split_and!; [reflexivity | exact Hb | exact Hp].
Defined.

(** X15: a job in a terminal state that is posted and then erased leaves the
    board with the postings it had; both notices have gone out, and the job
    still tracks the board, which [erase] does not undo. *)
Theorem jobboard_post_then_erase (self : ref) (utcnow : Z) (job : ref)
    (st : St) :
  _closed st.1 = false → job ∉ (_board st.1).*2 →
  job_state (st.2 job) = SUCCESS ∨ job_state (st.2 job) = FAILURE →
  let out := erase job (post self utcnow job st).1 in
  out.2 = inr () ∧
  _board out.1.1 = _board st.1 ∧
  notices out.1.1 = notices st.1 ++ [Posted job; Erased job] ∧
  posted_on (out.1.2 job) = posted_on (st.2 job) ++ [self].
Proof.
  intros Hopen Hout Hstate out. subst out. rewrite post_spec by done.
  cbn [fst]. rewrite board_erase_spec; cbn [fst snd _board notices].
  - split_and!; try done.
    + rewrite filter_app, filter_other_jobs by done.
      rewrite filter_cons, decide_False, filter_nil by (simpl; tauto).
      by rewrite app_nil_r.
    + by rewrite <- app_assoc.
    + unfold update_job. by rewrite decide_True.
  - done.
  - rewrite fmap_app, elem_of_app. right. by left.
  - unfold update_job. by rewrite decide_True.
Qed.

Lemma jobboard_post_then_erase_witness :
  let out := erase 1%nat (post 0%nat 5 1%nat (__init__, jobs_example)).1 in
  out.2 = inr () ∧ _board out.1.1 = [] ∧
  notices out.1.1 = [Posted 1%nat; Erased 1%nat].
Proof.
  destruct (jobboard_post_then_erase 0%nat 5 1%nat (__init__, jobs_example)
              eq_refl ltac:(by_compute) ltac:(by left))
    as (Hr & Hb & Hn & _).
  split_and!; [exact Hr | exact Hb | exact Hn].
Defined.

(** X16: the later the date, the more [posted_before] returns and the less
    [posted_after] does: the jobs returned for an earlier date are, in
    order, among those returned for a later one, and the other way round for
    [posted_after]; all are among the jobs returned without a date. *)
Theorem jobboard_dates_monotone (st : St) (d1 d2 : Z) :
  _closed st.1 = false → d1 ≤ d2 →
  ∃ before1 before2 after1 after2 all,
    posted_before (Some d1) st = (st, inr before1) ∧
    posted_before (Some d2) st = (st, inr before2) ∧
    posted_after (Some d1) st = (st, inr after1) ∧
    posted_after (Some d2) st = (st, inr after2) ∧
    posted_before None st = (st, inr all) ∧
    before1 `sublist_of` before2 ∧ before2 `sublist_of` all ∧
    after2 `sublist_of` after1 ∧ after1 `sublist_of` all.
Proof.
  intros Hopen Hle. unfold posted_before, posted_after.
  rewrite !check_open by done. run_M.
  eexists _, _, _, _, _. split_and!; try done;
    rewrite ?select_posts_all, ?select_posts_filter; apply fmap_sublist.
  - apply filter_sublist_impl. intros [d j]. simpl.
    rewrite !bool_decide_eq_true. lia.
  - apply sublist_filter.
  - apply filter_sublist_impl. intros [d j]. simpl.
    rewrite !bool_decide_eq_true. lia.
  - apply sublist_filter.
Qed.

Lemma jobboard_dates_monotone_witness :
  _closed board_example = false ∧
  (posted_before (Some 15) (board_example, jobs_example)).2 = inr [1%nat] ∧
  (posted_before (Some 25) (board_example, jobs_example)).2
    = inr [1%nat; 2%nat].
Proof.
  destruct (jobboard_dates_monotone (board_example, jobs_example) 15 25
              eq_refl ltac:(lia)) as (b1 & b2 & _).
  split_and!; reflexivity.
Defined.

Lemma posted_before_state (d : option Z) (st : St) :
  (posted_before d st).1 = st.
Proof. unfold posted_before, check_not_closed. by destruct (closed_flag st). Qed.

Lemma posted_after_state (d : option Z) (st : St) :
  (posted_after d st).1 = st.
Proof. unfold posted_after, check_not_closed. by destruct (closed_flag st). Qed.

Lemma await_state (timeout : option Z) (st : St) : (await timeout st).1 = st.
Proof. unfold await, check_not_closed. by destruct (closed_flag st). Qed.

Lemma board_perform_inv (self : ref) (st : St) (c : board_call) :
  board_inv self st → board_inv self (board_perform self st c).
Proof.
  intros (Hev & Hposted & Herased).
  destruct c as [utcnow job|job|job| |d|d|timeout|job owner|job owner|job s];
    simpl.
  - destruct (_closed st.1) eqn:Hc.
    { unfold post. by rewrite check_closed. }
    rewrite post_spec by done. unfold board_inv.
    cbn [fst snd _event _board notices]. split_and!; [done | |].
    + intros j Hj. unfold update_job.
      rewrite fmap_app, elem_of_app in Hj. rewrite elem_of_app.
      destruct (decide (j = job)) as [->|Hne].
      * split; [right; by left|]. cbn [posted_on].
        apply elem_of_app. right. by left.
      * destruct Hj as [Hj|Hj]; [|by apply list_elem_of_singleton in Hj].
        destruct (Hposted j Hj). auto.
    + intros j [Hj|Hj]%elem_of_app;
        [|by apply list_elem_of_singleton in Hj].
      apply elem_of_app. left. by apply Herased.
  - unfold repost, _notify_posted, set_event. run_M. unfold board_inv.
    cbn [fst snd _event _board notices]. split_and!; [done | |].
    + intros j Hj. destruct (Hposted j Hj). split; [|done].
      apply elem_of_app. by left.
    + intros j [Hj|Hj]%elem_of_app;
        [|by apply list_elem_of_singleton in Hj].
      apply elem_of_app. left. by apply Herased.
  - destruct (board_erase_state job st) as [->|(Hopen & Hin & ->)]; [done|].
    unfold board_inv. cbn [fst snd _event _board notices].
    split_and!; [done | |].
    + intros j Hj. apply list_elem_of_fmap in Hj
        as ([d' j'] & -> & [_ Hj]%list_elem_of_filter).
      destruct (Hposted j') as [? ?];
        [apply list_elem_of_fmap; by exists (d', j')|].
      split; [apply elem_of_app; by left | done].
    + intros j [Hj|Hj]%elem_of_app.
      * apply elem_of_app. left. by apply Herased.
      * apply list_elem_of_singleton in Hj as [= ->].
        apply elem_of_app. left. by apply Hposted.
  - done.
  - by rewrite posted_before_state.
  - by rewrite posted_after_state.
  - by rewrite await_state.
  - unfold on_jobs, MemoryClaimer.claim, board_inv. run_M.
    split_and!; [done | | done]. intros j Hj. destruct (Hposted j Hj).
    split; [done|]. unfold update_job. by case_decide; subst.
  - unfold on_jobs, MemoryClaimer.unclaim, board_inv. run_M.
    split_and!; [done | | done]. intros j Hj. destruct (Hposted j Hj).
    split; [done|]. unfold update_job. by case_decide; subst.
  - unfold board_inv. cbn [fst snd].
    split_and!; [done | | done]. intros j Hj. destruct (Hposted j Hj).
    split; [done|]. unfold update_job. by case_decide; subst.
Qed.

(** X17: whatever is done with a board, from its creation on, between calls its
    event is clear, so that a wait started then returns only for a later
    posting; every job it lists has been announced and tracks the board;
    and no job has been reported erased that was not announced before. *)
Theorem jobboard_keeps_track (self : ref) (jobs : Jobs)
    (calls : list board_call) :
  let st := board_perform_all self (__init__, jobs) calls in
  _event st.1 = false ∧
  (∀ j, j ∈ (_board st.1).*2 →
     Posted j ∈ notices st.1 ∧ self ∈ posted_on (st.2 j)) ∧
  (∀ j, Erased j ∈ notices st.1 → Posted j ∈ notices st.1).
Proof.
  intros st. change (board_inv self st). subst st.
  unfold board_perform_all.
  assert (board_inv self (__init__, jobs)) as Hinit.
  { unfold board_inv. simpl. split_and!; [done | |];
      by intros j ?%elem_of_nil. }
  revert Hinit. generalize (__init__, jobs).
  induction calls as [|c calls IH]; simpl; [done|].
  intros st Hinv. by apply IH, board_perform_inv.
Qed.

Lemma jobboard_keeps_track_witness :
  let st := board_perform_all 0%nat (__init__, jobs_example)
              [BPost 5 2%nat; BSetState 2%nat SUCCESS; BErase 2%nat] in
  notices st.1 = [Posted 2%nat; Erased 2%nat] ∧ _event st.1 = false.
Proof.
  intros st.
  destruct (jobboard_keeps_track 0%nat jobs_example
              [BPost 5 2%nat; BSetState 2%nat SUCCESS; BErase 2%nat])
    as (Hev & _).
  split; [reflexivity | exact Hev].
Defined.

End JobBoardProperties.

(** ** The claimer *)

Section ClaimerProperties.
Import MemoryClaimer.

(** X18: the claimer checks nothing: [claim] makes the caller the owner also of a
    job that has an owner, [unclaim] clears the owner whoever asks, and
    neither raises; the job's state and the boards it tracks, and every
    other job, are as before. *)
Theorem claimer_checks_nothing (jobs : Jobs) (job : ref)
    (first second anyone : string) :
  let claimed := claim job second (claim job first jobs).1 in
  let released := unclaim job anyone claimed.1 in
  (claim job first jobs).2 = inr () ∧
  job_owner ((claim job first jobs).1 job) = Some first ∧
  claimed.2 = inr () ∧
  job_owner (claimed.1 job) = Some second ∧
  released.2 = inr () ∧
  job_owner (released.1 job) = None ∧
  job_state (released.1 job) = job_state (jobs job) ∧
  posted_on (released.1 job) = posted_on (jobs job) ∧
  (∀ j, j ≠ job → released.1 j = jobs j).
Proof.
  intros claimed released. subst claimed released. unfold claim, unclaim.
  run_M. unfold update_job. rewrite !decide_True by done.
  split_and!; try done.
  intros j Hj. by rewrite !decide_False.
Qed.

Lemma claimer_checks_nothing_witness :
  job_owner
    ((MemoryClaimer.unclaim 1%nat "carol"
        (claim 1%nat "bob" (claim 1%nat "alice" jobs_example).1).1).1 1%nat)
    = None.
Proof.
  destruct (claimer_checks_nothing jobs_example 1%nat "alice" "bob" "carol")
    as (_ & _ & _ & _ & _ & Hnone & _).
  exact Hnone.
Defined.

End ClaimerProperties.

(** ** Flow details, on an example *)

Section FlowDetailExamples.
Import MemoryFlowDetail.

Lemma flow_detail_add_task_witness :
  (__getitem__ "a" (add_task "a" (Some "third") detail_example).1).2
    = inr [mkTaskDetail "a" None; mkTaskDetail "a" (Some "again");
           mkTaskDetail "a" (Some "third")] ∧
  (__getitem__ "b" (add_task "a" (Some "third") detail_example).1).2
    = inr [mkTaskDetail "b" None].
Proof.
  destruct (flow_detail_add_task detail_example "a" (Some "third"))
    as (_ & _ & _ & _ & (before & Hb & Ha) & Hother & _).
  split.
  - rewrite Ha. injection Hb as <-. reflexivity.
  - rewrite (Hother "b") by done. reflexivity.
Defined.

Lemma flow_detail_lookup_witness :
  __getitem__ "c" detail_example = (detail_example, inr []) ∧
  __contains__ "c" detail_example = (detail_example, inr false).
Proof.
  destruct (flow_detail_lookup detail_example "c")
    as (found & Hg & _ & _ & Hc & Hnone).
  assert (found = []) as ->.
  { apply Hnone. intros td Htd. unfold detail_example in Htd.
    cbn [_tasks] in Htd.
    repeat (apply elem_of_cons in Htd as [->|Htd]);
      [..|by apply elem_of_nil in Htd]; done. }
  split; [exact Hg | exact Hc].
Defined.

Lemma flow_detail_delitem_witness :
  _tasks (__delitem__ "a" detail_example).1 = [mkTaskDetail "b" None] ∧
  (__delitem__ "c" detail_example).1 = detail_example.
Proof.
  destruct (flow_detail_delitem detail_example "a") as (_ & Ht & _).
  destruct (flow_detail_delitem detail_example "c")
    as (_ & _ & _ & _ & _ & _ & _ & _ & Hsame).
  split; [rewrite Ht; reflexivity|].
  apply Hsame. intros td Htd. unfold detail_example in Htd.
  cbn [_tasks] in Htd.
  repeat (apply elem_of_cons in Htd as [->|Htd]);
    [..|by apply elem_of_nil in Htd]; done.
Defined.

End FlowDetailExamples.

(** ** Closing is for good *)

Section ClosedForGood.

(** X19: a closed catalog keeps its entries and stays closed, whatever is called
    on it; its log books can still be changed by those who hold them. *)
Theorem catalog_closed_is_frozen (st : MemoryCatalog.St)
    (calls : list catalog_call) :
  MemoryCatalog._closed st.1 = true →
  (catalog_perform_all st calls).1 = st.1.
Proof.
  unfold catalog_perform_all. revert st.
  induction calls as [|c calls IH]; intros st Hc; [done|]. simpl.
  assert ((catalog_perform st c).1 = st.1) as Hstep.
  { destruct c; simpl; try done.
    - destruct st as [[cat cl] books]. simpl in *. by subst.
    - unfold MemoryCatalog.create_or_fetch. by rewrite check_closed.
    - unfold MemoryCatalog.erase. by rewrite check_closed. }
  rewrite IH by (by rewrite Hstep). done.
Qed.

Lemma catalog_closed_is_frozen_witness :
  (catalog_perform_all closed_catalog
     [CatCreateOrFetch 1%nat; CatErase 1%nat]).1 = closed_catalog.1.
Proof. apply (catalog_closed_is_frozen closed_catalog); reflexivity. Defined.



End ClosedForGood.
